(** * ws2812.c: pattern engine for a WS2812 LED string on the RP2040

    A shallow embedding of [src/ws2812.c]: the pixel encoder, the LED array
    helpers, the button handler with its poll-and-clear flag, and the four
    pattern routines (fade, step-cycle, walk, chase), followed by the
    properties of the specification that concern them. *)

From Stdlib Require Import ZArith List Bool Arith Lia ZifyNat.
Import ListNotations.

Local Open Scope Z_scope.

(** ** Machine integers

    The target is a 32-bit ARM core: [int] and [size_t] are 32 bits wide.
    Every C integer is a [Z] and each conversion is written where the C
    code performs it. *)

Definition u8 (z : Z) : Z := z mod 2 ^ 8.
Definition u16 (z : Z) : Z := z mod 2 ^ 16.
Definition u32 (z : Z) : Z := z mod 2 ^ 32.

(** [int]: two's complement wrap-around on 32 bits. *)
Definition s32 (z : Z) : Z := (z + 2 ^ 31) mod 2 ^ 32 - 2 ^ 31.

Definition INT_MAX : Z := 2 ^ 31 - 1.

(** Conversion of an [int] to [size_t], as in [idx == clr_pos]. *)
Definition size_t_of_int (z : Z) : Z := u32 z.

(** C truth value of an integer expression. *)
Definition nonzero (z : Z) : bool := negb (z =? 0).

(** ** Constants of the program *)

Definition NUM_PIXELS : nat := 100.
Definition MODE_PIN : Z := 16.
Definition MODE_MAX : Z := 6.
Definition led_pattern_max : Z := MODE_MAX.

(** ** The machine

    The three globals of the program, the memory seen from the start of the
    LED array (word offsets; offset [0] is [array[0]]), and three logs: the
    offsets stored to, the words pushed to the PIO and the time slept. *)

Record machine : Type := Machine {
  led_pressed : bool;
  button_interrupt : bool;
  led_pattern : Z;
  cell : nat -> Z;
  written : list nat;
  fifo : list Z;
  slept : Z
}.

(** [array[i] = v]: the store goes to offset [i] whatever the length of the
    buffer is, and is logged. *)
Definition poke (i : nat) (v : Z) (m : machine) : machine :=
  Machine (led_pressed m) (button_interrupt m) (led_pattern m)
          (fun j => if Nat.eqb j i then v else cell m j)
          (i :: written m) (fifo m) (slept m).

(** [pio_sm_put_blocking(pio, sm, w)]. *)
Definition pio_sm_put_blocking (w : Z) (m : machine) : machine :=
  Machine (led_pressed m) (button_interrupt m) (led_pattern m)
          (cell m) (written m) (w :: fifo m) (slept m).

(** [sleep_ms(ms)]. *)
Definition sleep_ms (ms : Z) (m : machine) : machine :=
  Machine (led_pressed m) (button_interrupt m) (led_pattern m)
          (cell m) (written m) (fifo m) (slept m + ms).

(** The first [n] cells: the LED array of a buffer of length [n]. *)
Definition buffer (n : nat) (m : machine) : list Z := map (cell m) (seq 0 n).

(** The machine after start-up: flags clear, pattern 0, memory zeroed by
    [calloc], nothing logged. *)
Definition boot : machine :=
  Machine false false 0 (fun _ => 0) [] [] 0.

(** [for (size_t idx = from; ...; idx++) body], run [todo] times. *)
Fixpoint for_loop (idx todo : nat) (body : nat -> machine -> machine)
                  (m : machine) : machine :=
  match todo with
  | O => m
  | S todo' => for_loop (S idx) todo' body (body idx m)
  end.

(** ** Pixel encoding and the LED array helpers *)

(** [rgb_u32]: the parameters are [uint8_t], so the arguments are converted
    on entry. *)
Definition rgb_u32 (r g b : Z) : Z :=
  let r := u8 r in
  let g := u8 g in
  let b := u8 b in
  Z.lor (Z.lor (u32 (Z.shiftl g 8)) (u32 (Z.shiftl r 16))) b.

(** [led_array_write]: [array] walks the cells in step with [idx]; cell
    [idx], shifted left by 8, goes to the PIO. *)
Definition led_array_write (array_size : nat) (m : machine) : machine :=
  for_loop 0 array_size
           (fun idx m => pio_sm_put_blocking (u32 (Z.shiftl (cell m idx) 8)) m) m.

(** [led_array_set]: [*array++ = colour], [array] in step with [idx]. *)
Definition led_array_set (array_size : nat) (colour : Z) (m : machine)
  : machine :=
  for_loop 0 array_size (fun idx m => poke idx colour m) m.

(** [clear_leds]. *)
Definition clear_leds (array_size : nat) (m : machine) : machine :=
  led_array_write array_size (led_array_set array_size 0 m).

(** ** The mode signal *)

(** [get_interrupted]: the flag read, and cleared when it was set. *)
Definition get_interrupted (m : machine) : bool * machine :=
  let ret := button_interrupt m in
  if ret
  then (ret, Machine (led_pressed m) false (led_pattern m)
                     (cell m) (written m) (fifo m) (slept m))
  else (ret, m).

(** [gpio_callback]: bit [0x04] of [events] is the press edge, bit [0x08]
    (looked at only when [0x04] is clear) the release edge. *)
Definition gpio_callback (gpio events : Z) (m : machine) : machine :=
  if nonzero (Z.land events 4) then
    if Bool.eqb (led_pressed m) false
    then Machine true (button_interrupt m) (led_pattern m)
                 (cell m) (written m) (fifo m) (slept m)
    else m
  else if nonzero (Z.land events 8) then
    if Bool.eqb (led_pressed m) true
    then
      let p := s32 (led_pattern m + 1) in
      let p := if p =? led_pattern_max then 0 else p in
      Machine false true p (cell m) (written m) (fifo m) (slept m)
    else m
  else m.

(** The events of one interval between two polls, delivered in order. *)
Definition deliver (gpio : Z) (events : list Z) (m : machine) : machine :=
  fold_left (fun m e => gpio_callback gpio e m) events m.

(** ** The frame loop shared by the pattern routines

    [while (1) { if (get_interrupted()) break; body }].  The handler only
    touches the three globals and the routines never read them outside the
    poll, so the events of an iteration are delivered just before the poll
    that follows them.  [sched] lists, iteration by iteration, the events
    that arrive. *)

Section FrameLoop.
Context {L : Type}.
Variable body : L -> machine -> L * machine.

(** [Some rest]: the routine returned, [rest] is the schedule left over;
    [None]: it is still running when the schedule ends. *)
Fixpoint frame_loop (sched : list (list Z)) (l : L) (m : machine)
  : option (list (list Z)) * L * machine :=
  match sched with
  | [] => (None, l, m)
  | events :: sched' =>
      let (ret, m1) := get_interrupted (deliver MODE_PIN events m) in
      if ret then (Some sched', l, m1)
      else let (l', m2) := body l m1 in frame_loop sched' l' m2
  end.

(** The locals and the machine at the top of iteration [k] when the button
    is left alone. *)
Fixpoint frames (k : nat) (l : L) (m : machine) : L * machine :=
  match k with
  | O => (l, m)
  | S k' => let (l', m') := body l m in frames k' l' m'
  end.
End FrameLoop.

(** ** fade_three *)

Module Fade.

Record locals : Type := Locals {
  red : Z; grn : Z; blu : Z;
  d_red : Z; d_grn : Z; d_blu : Z;
  step_no : Z
}.

(** [uint16_t wait_ms = (((period*10)/256)+5)/10]. *)
Definition wait_ms (period : Z) : Z :=
  u16 (Z.quot (s32 (Z.quot (s32 (period * 10)) 256 + 5)) 10).

(** [uint16_t step_count = period / wait_ms]; the division traps when
    [wait_ms] is zero. *)
Definition step_count (period : Z) : option Z :=
  if wait_ms period =? 0 then None
  else Some (u16 (Z.quot period (wait_ms period))).

(** [(red > 127) ? -adj : adj]. *)
Definition direction (v adj : Z) : Z :=
  if 127 <? v then s32 (- adj) else adj.

Definition start (red grn blu adj : Z) : locals :=
  let red := u8 red in
  let grn := u8 grn in
  let blu := u8 blu in
  Locals red grn blu
         (direction red adj) (direction grn adj) (direction blu adj) 0.

(** The drawing loop: [array_size] rounds, each storing three cells
    through [ap] and moving [ap] on by three. *)
Fixpoint draw (todo : nat) (ap : nat) (red grn blu : Z) (m : machine)
  : machine :=
  match todo with
  | O => m
  | S todo' =>
      let m := poke ap (rgb_u32 (Z.shiftr red 3) 0 0) m in
      let m := poke (ap + 1) (rgb_u32 0 (Z.shiftr grn 3) 0) m in
      let m := poke (ap + 2) (rgb_u32 0 0 (Z.shiftr blu 3)) m in
      draw todo' (ap + 3) red grn blu m
  end.

(** [red += d_red] on a [uint8_t]. *)
Definition bump (v d : Z) : Z := u8 (v + d).

(** [(red == 255) ? -1 : (red == 0) ? 1 : d_red]. *)
Definition turn (v d : Z) : Z :=
  if v =? 255 then -1 else if v =? 0 then 1 else d.

(** The locals after one iteration. *)
Definition next (count : Z) (l : locals) : locals :=
  let red := bump (red l) (d_red l) in
  let grn := bump (grn l) (d_grn l) in
  let blu := bump (blu l) (d_blu l) in
  let n := u16 (step_no l + 1) in
  Locals red grn blu
         (turn red (d_red l)) (turn grn (d_grn l)) (turn blu (d_blu l))
         (if count <=? n then 0 else n).

(** One iteration after the poll. *)
Definition body (wait count : Z) (array_size : nat)
                (l : locals) (m : machine) : locals * machine :=
  let m := draw array_size 0 (red l) (grn l) (blu l) m in
  let m := led_array_write array_size m in
  let l' := next count l in
  (l', if count <=? u16 (step_no l + 1) then m else sleep_ms wait m).

Definition fade_three (array_size : nat) (red grn blu period adj : Z)
                      (sched : list (list Z)) (m : machine)
  : option (option (list (list Z)) * locals * machine) :=
  let period := u16 period in
  match step_count period with
  | None => None
  | Some count =>
      Some (frame_loop (body (wait_ms period) count array_size)
                       sched (start red grn blu adj) m)
  end.

End Fade.

(** ** step_three *)

Module Step.

Record locals : Type := Locals { clr_index : Z; clr_value : Z }.

(** [uint16_t wait_ms = (((period*10)/255)+5)/10].  ([step_count] is
    computed next to it and never read.) *)
Definition wait_ms (period : Z) : Z :=
  u16 (Z.quot (s32 (Z.quot (s32 (period * 10)) 255 + 5)) 10).

Definition start : locals := Locals 0 0.

(** The colour chosen by the [switch]. *)
Definition colour (l : locals) : Z :=
  let v := Z.shiftr (clr_value l) 3 in
  if clr_index l =? 1 then rgb_u32 0 v 0
  else if clr_index l =? 2 then rgb_u32 0 0 v
  else rgb_u32 v 0 0.

Definition next (l : locals) : locals :=
  let v := u8 (clr_value l + 1) in
  if v =? 255 then
    let i := s32 (clr_index l + 1) in
    Locals (if 2 <? i then 0 else i) 0
  else Locals (clr_index l) v.

Definition body (wait : Z) (array_size : nat) (l : locals) (m : machine)
  : locals * machine :=
  let m := led_array_set array_size (colour l) m in
  let m := led_array_write array_size m in
  (next l, sleep_ms wait m).

Definition step_three (array_size : nat) (period : Z)
                      (sched : list (list Z)) (m : machine)
  : option (list (list Z)) * locals * machine :=
  let period := u16 period in
  frame_loop (body (wait_ms period) array_size) sched start m.

End Step.

(** ** walk_three *)

Module Walk.

(** [step] and the three entries of [clrs]. *)
Record locals : Type := Locals { step : Z; clrs : list Z }.

Definition red : Z := rgb_u32 (Z.shiftr 255 3) 0 0.
Definition grn : Z := rgb_u32 0 (Z.shiftr 255 3) 0.
Definition blu : Z := rgb_u32 0 0 (Z.shiftr 255 3).

(** [clrs] is not initialised by the C code; each iteration assigns all of
    it before reading it. *)
Definition start : locals := Locals 0 [0; 0; 0].

(** The [if] chain on [step]. *)
Definition next (l : locals) : locals :=
  if step l =? 0 then Locals 1 [red; grn; blu]
  else if step l =? 1 then Locals 2 [grn; blu; red]
  else Locals 0 [blu; red; grn].

Definition body (period : Z) (array_size : nat) (l : locals) (m : machine)
  : locals * machine :=
  let l' := next l in
  let m := for_loop 0 array_size
                    (fun i m => poke i (nth (i mod 3)%nat (clrs l') 0) m) m in
  let m := led_array_write array_size m in
  (l', sleep_ms period m).

Definition walk_three (array_size : nat) (period : Z)
                      (sched : list (list Z)) (m : machine)
  : option (list (list Z)) * locals * machine :=
  frame_loop (body (u16 period) array_size) sched start m.

End Walk.

(** ** chase_colour *)

Module Chase.

Record locals : Type := Locals { clr_pos : Z; clr_id : Z; clr_dir : Z }.

(** The character codes ['r'], ['g'] and ['b']. *)
Definition chr_r : Z := 114.
Definition chr_g : Z := 103.
Definition chr_b : Z := 98.

Definition start : locals := Locals 0 chr_r 1.

Definition clr_fg (id : Z) : Z :=
  if id =? chr_r then 0x0f0000
  else if id =? chr_g then 0x000f00
  else 0x00000f.

Definition clr_bg (bg_on : bool) (id : Z) : Z :=
  if id =? chr_r then (if bg_on then 0x000201 else 0)
  else if id =? chr_g then (if bg_on then 0x010002 else 0)
  else (if bg_on then 0x020100 else 0).

(** The drawing loop; [idx == clr_pos] compares as [size_t]. *)
Definition draw (array_size : nat) (bg_on : bool) (l : locals) (m : machine)
  : machine :=
  for_loop 0 array_size
           (fun idx m =>
              if Z.of_nat idx =? size_t_of_int (clr_pos l)
              then poke idx (clr_fg (clr_id l)) m
              else poke idx (clr_bg bg_on (clr_id l)) m) m.

(** The [switch] on [clr_id]. *)
Definition rotate (id : Z) : Z :=
  if id =? chr_g then chr_b
  else if id =? chr_b then chr_r
  else chr_g.

(** "Advance the position"; [clr_pos == array_size] compares as [size_t]. *)
Definition next (array_size : nat) (l : locals) : locals :=
  if clr_dir l =? 1 then
    let pos := s32 (clr_pos l + 1) in
    if size_t_of_int pos =? Z.of_nat array_size
    then Locals (s32 (pos - 1)) (clr_id l) (-1)
    else Locals pos (clr_id l) (clr_dir l)
  else if clr_dir l =? -1 then
    let pos := s32 (clr_pos l - 1) in
    if pos <? 0
    then Locals 0 (rotate (clr_id l)) 1
    else Locals pos (clr_id l) (clr_dir l)
  else l.

Definition body (period : Z) (bg_on : bool) (array_size : nat)
                (l : locals) (m : machine) : locals * machine :=
  let m := draw array_size bg_on l m in
  let m := led_array_write array_size m in
  (next array_size l, sleep_ms period m).

Definition chase_colour (array_size : nat) (period : Z) (bg_on : bool)
                        (sched : list (list Z)) (m : machine)
  : option (list (list Z)) * locals * machine :=
  frame_loop (body (u16 period) bg_on array_size) sched start
             (clear_leds array_size m).

End Chase.

(** ** The scheduler in [main] *)

Inductive invocation : Type :=
| CallWalk (period : Z)
| CallFade (red grn blu period adj : Z)
| CallChase (period : Z) (bg_on : bool).

(** [switch (led_pattern)]: the routine and the arguments of each case. *)
Definition dispatch (pattern : Z) : option invocation :=
  if pattern =? 0 then Some (CallWalk 100)
  else if pattern =? 1 then Some (CallFade 255 0 127 3000 1)
  else if pattern =? 2 then Some (CallWalk 200)
  else if pattern =? 3 then Some (CallFade 255 0 127 3000 2)
  else if pattern =? 4 then Some (CallChase 100 false)
  else if pattern =? 5 then Some (CallChase 100 true)
  else None.

(** A call: what is left of the schedule when it returns, and the machine.
    The outer [None] is the division trap of [fade_three]. *)
Definition invoke (c : invocation) (sched : list (list Z)) (m : machine)
  : option (option (list (list Z)) * machine) :=
  match c with
  | CallWalk period =>
      let '(r, _, m') := Walk.walk_three NUM_PIXELS period sched m in
      Some (r, m')
  | CallFade red grn blu period adj =>
      match Fade.fade_three NUM_PIXELS red grn blu period adj sched m with
      | Some (r, _, m') => Some (r, m')
      | None => None
      end
  | CallChase period bg_on =>
      let '(r, _, m') := Chase.chase_colour NUM_PIXELS period bg_on sched m in
      Some (r, m')
  end.

(** The endless [while (1)] of [main], cut after [rounds] dispatches. *)
Fixpoint main_loop (rounds : nat) (sched : list (list Z)) (m : machine)
  : option machine :=
  match rounds with
  | O => Some m
  | S rounds' =>
      match dispatch (led_pattern m) with
      | None => main_loop rounds' sched m
      | Some c =>
          match invoke c sched m with
          | None => None
          | Some (None, m') => Some m'
          | Some (Some rest, m') => main_loop rounds' rest m'
          end
      end
  end.

(** [main] once the PIO is claimed and the array allocated: the LEDs are
    cleared, a second passes, and the scheduler starts. *)
Definition main (rounds : nat) (sched : list (list Z)) : option machine :=
  main_loop rounds sched (sleep_ms 1000 (clear_leds NUM_PIXELS boot)).

(** * Vocabulary of the properties *)

(** What a piece of code leaves alone: the three globals. *)
Definition same_globals (m m' : machine) : Prop :=
  led_pressed m' = led_pressed m /\
  button_interrupt m' = button_interrupt m /\
  led_pattern m' = led_pattern m.

(** The edges as the handler tells them apart: a press has bit [0x04] set,
    a release has bit [0x08] set and bit [0x04] clear. *)
Definition is_press (events : Z) : bool := nonzero (Z.land events 4).
Definition is_release (events : Z) : bool :=
  negb (nonzero (Z.land events 4)) && nonzero (Z.land events 8).

(** A press edge followed by a release edge. *)
Definition press_release (gpio press release : Z) (m : machine) : machine :=
  gpio_callback gpio release (gpio_callback gpio press m).

(** [poll] is [get_interrupted] with its result dropped. *)
Definition poll (m : machine) : machine := snd (get_interrupted m).

(** The three channel bytes of a pixel word, most significant first. *)
Definition byte2 (w : Z) : Z := Z.land (Z.shiftr w 16) 255.
Definition byte1 (w : Z) : Z := Z.land (Z.shiftr w 8) 255.
Definition byte0 (w : Z) : Z := Z.land w 255.

(** The word the specification describes for a pixel: green in the most
    significant channel byte, then red, then blue. *)
Definition spec_grb_word (r g b : Z) : Z := g * 2 ^ 16 + r * 2 ^ 8 + b.

(** The colour [fade_three] stores [k] cells after the start of the array:
    [ap[0]], [ap[1]] and [ap[2]] of round [k / 3]. *)
Definition fade_colour (red grn blu : Z) (k : nat) : Z :=
  match (k mod 3)%nat with
  | O => rgb_u32 (Z.shiftr red 3) 0 0
  | 1%nat => rgb_u32 0 (Z.shiftr grn 3) 0
  | _ => rgb_u32 0 0 (Z.shiftr blu 3)
  end.

(** The buffer the specification describes after a frame of the fade: the
    first third red only, the second third green only, the rest blue only. *)
Definition spec_fade_thirds (n : nat) (red grn blu : Z) : list Z :=
  map (fun i =>
         if (i <? n / 3)%nat then rgb_u32 (Z.shiftr red 3) 0 0
         else if (i <? 2 * (n / 3))%nat then rgb_u32 0 (Z.shiftr grn 3) 0
         else rgb_u32 0 0 (Z.shiftr blu 3))
      (seq 0 n).

(** Every store logged so far went to a cell of a buffer of length [n]. *)
Definition in_bounds (n : nat) (m : machine) : Prop :=
  Forall (fun i => (i < n)%nat) (written m).

(** One channel of the fade over one frame: the value and its direction. *)
Definition fade_channel (vd : Z * Z) : Z * Z :=
  let v := Fade.bump (fst vd) (snd vd) in (v, Fade.turn v (snd vd)).

(** A channel of the fade that reflects with step 1: the direction is 1 or
    -1, and it points inwards at both ends of the range. *)
Definition reflecting (vd : Z * Z) : Prop :=
  0 <= fst vd <= 255 /\
  (snd vd = 1 \/ snd vd = -1) /\
  (fst vd = 0 -> snd vd = 1) /\
  (fst vd = 255 -> snd vd = -1).

(** The position of the chaser [j] frames into a round trip over [n] cells:
    up from 0 to [n - 1], then down again, each end shown twice. *)
Definition chase_position (n j : nat) : nat :=
  if (j <? n)%nat then j else (2 * n - 1 - j)%nat.

Definition chase_direction (n j : nat) : Z :=
  if (j <? n)%nat then 1 else -1.

(** The pattern counter selects one of the cases of the [switch]. *)
Definition pattern_in_range (m : machine) : Prop :=
  0 <= led_pattern m < MODE_MAX.

(** What the handler and the poll leave alone: the memory and the logs. *)
Definition same_memory (m m' : machine) : Prop :=
  cell m' = cell m /\ written m' = written m /\
  fifo m' = fifo m /\ slept m' = slept m.

(** The three channels of the fade, each with its direction. *)
Definition fade_red_channel (l : Fade.locals) : Z * Z := (Fade.red l, Fade.d_red l).
Definition fade_grn_channel (l : Fade.locals) : Z * Z := (Fade.grn l, Fade.d_grn l).
Definition fade_blu_channel (l : Fade.locals) : Z * Z := (Fade.blu l, Fade.d_blu l).

Definition pair_eqb (a b : Z * Z) : bool :=
  (fst a =? fst b) && (snd a =? snd b).

(** A channel going from [(v, d)] to the value [v'] in one frame moves by
    one, in its direction, inside the 8-bit range. *)
Definition unit_step (vd : Z * Z) (v' : Z) : Prop :=
  (snd vd = 1 \/ snd vd = -1) /\
  v' = fst vd + snd vd /\
  0 <= fst vd <= 255 /\ 0 <= v' <= 255.

(** * Properties *)

(** ** Machine integers *)

Lemma u8_small (z : Z) : 0 <= z < 256 -> u8 z = z.
Proof. intros H. unfold u8. apply Z.mod_small. lia. Qed.

Lemma u8_range (z : Z) : 0 <= u8 z < 256.
Proof. unfold u8. apply Z.mod_pos_bound. lia. Qed.

Lemma s32_small (z : Z) : - 2 ^ 31 <= z <= INT_MAX -> s32 z = z.
Proof.
  unfold s32, INT_MAX. intros H.
  rewrite Z.mod_small; lia.
Qed.

Lemma u32_small (z : Z) : 0 <= z < 2 ^ 32 -> u32 z = z.
Proof. intros H. unfold u32. apply Z.mod_small. lia. Qed.

Lemma shiftr3_range (z : Z) : 0 <= z < 256 -> 0 <= Z.shiftr z 3 < 32.
Proof.
  intros H. rewrite Z.shiftr_div_pow2 by lia.
  change (2 ^ 3) with 8. split.
  - apply Z.div_pos; lia.
  - apply Z.div_lt_upper_bound; lia.
Qed.

(** ** Counted loops *)

Lemma for_loop_inv (P : nat -> machine -> Prop)
      (body : nat -> machine -> machine) (todo : nat) :
  forall idx m,
    (forall i m', (idx <= i < idx + todo)%nat -> P i m' -> P (S i) (body i m')) ->
    P idx m ->
    P (idx + todo)%nat (for_loop idx todo body m).
Proof.
  induction todo as [|todo IH]; intros idx m Hstep H0; simpl.
  - now rewrite Nat.add_0_r.
  - replace (idx + S todo)%nat with (S idx + todo)%nat by lia.
    apply IH.
    + intros i m' Hi. apply Hstep. lia.
    + apply Hstep; [lia | exact H0].
Qed.

Lemma same_globals_refl (m : machine) : same_globals m m.
Proof. repeat split. Qed.

Lemma same_globals_trans (m1 m2 m3 : machine) :
  same_globals m1 m2 -> same_globals m2 m3 -> same_globals m1 m3.
Proof. unfold same_globals. intuition congruence. Qed.

Lemma for_loop_globals (body : nat -> machine -> machine) :
  (forall i m, same_globals m (body i m)) ->
  forall todo idx m, same_globals m (for_loop idx todo body m).
Proof.
  intros Hb todo. induction todo as [|todo IH]; intros idx m; simpl.
  - apply same_globals_refl.
  - eapply same_globals_trans; [apply Hb | apply IH].
Qed.

Lemma led_array_write_globals (n : nat) (m : machine) :
  same_globals m (led_array_write n m).
Proof. apply for_loop_globals. intros; repeat split. Qed.

Lemma led_array_write_cell (n : nat) (m : machine) :
  cell (led_array_write n m) = cell m.
Proof.
  unfold led_array_write.
  apply (for_loop_inv (fun _ m' => cell m' = cell m)); auto.
Qed.

Lemma led_array_write_written (n : nat) (m : machine) :
  written (led_array_write n m) = written m.
Proof.
  unfold led_array_write.
  apply (for_loop_inv (fun _ m' => written m' = written m)); auto.
Qed.

(** A loop whose round [i] stores to offset [i] only. *)
Lemma for_loop_poke_cell (val : nat -> Z) (n : nat) (m : machine) (j : nat) :
  cell (for_loop 0 n (fun i m' => poke i (val i) m') m) j
  = if (j <? n)%nat then val j else cell m j.
Proof.
  pose (P := fun (i : nat) (m' : machine) =>
               forall j, cell m' j = if (j <? i)%nat then val j else cell m j).
  enough (H : P (0 + n)%nat (for_loop 0 n (fun i m' => poke i (val i) m') m))
    by apply H.
  apply for_loop_inv.
  - intros i m' _ Hi j'. unfold poke; simpl.
    destruct (Nat.eqb_spec j' i) as [->|Hne].
    + now rewrite (proj2 (Nat.ltb_lt i (S i))) by lia.
    + rewrite Hi.
      destruct (Nat.ltb_spec j' i), (Nat.ltb_spec j' (S i)); try lia; reflexivity.
  - intros j'. reflexivity.
Qed.

Lemma for_loop_poke_written (val : nat -> Z) (n : nat) (m : machine) (bound : nat) :
  (n <= bound)%nat ->
  Forall (fun i => (i < bound)%nat) (written m) ->
  Forall (fun i => (i < bound)%nat)
         (written (for_loop 0 n (fun i m' => poke i (val i) m') m)).
Proof.
  intros Hn H0.
  apply (for_loop_inv (fun _ m' => Forall (fun i => (i < bound)%nat) (written m'))
                      _ n 0 m); [|exact H0].
  intros i m' Hi H. simpl. constructor; [lia | exact H].
Qed.

Lemma for_loop_poke_globals (val : nat -> Z) (n : nat) (m : machine) :
  same_globals m (for_loop 0 n (fun i m' => poke i (val i) m') m).
Proof. apply for_loop_globals. intros; repeat split. Qed.

(** ** The mode signal *)

Lemma press_sets_pressed (gpio press : Z) (m : machine) :
  is_press press = true ->
  led_pressed (gpio_callback gpio press m) = true /\
  button_interrupt (gpio_callback gpio press m) = button_interrupt m /\
  led_pattern (gpio_callback gpio press m) = led_pattern m.
Proof.
  unfold is_press, gpio_callback. intros ->.
  destruct (led_pressed m) eqn:E; simpl; auto.
Qed.

Lemma release_when_pressed (gpio release : Z) (m : machine) :
  is_release release = true ->
  led_pressed m = true ->
  0 <= led_pattern m < MODE_MAX ->
  led_pressed (gpio_callback gpio release m) = false /\
  button_interrupt (gpio_callback gpio release m) = true /\
  led_pattern (gpio_callback gpio release m) = (led_pattern m + 1) mod MODE_MAX.
Proof.
  unfold is_release, gpio_callback. intros Hr Hp Hrange.
  apply andb_true_iff in Hr as [H4 H8].
  apply negb_true_iff in H4. rewrite H4, H8, Hp. simpl.
  unfold led_pattern_max, MODE_MAX in *.
  rewrite s32_small by (unfold INT_MAX; lia).
  repeat split.
  destruct (Z.eqb_spec (led_pattern m + 1) 6) as [E|E].
  - rewrite E. reflexivity.
  - rewrite Z.mod_small; lia.
Qed.

Lemma press_release_spec (gpio press release : Z) (m : machine) :
  is_press press = true ->
  is_release release = true ->
  0 <= led_pattern m < MODE_MAX ->
  led_pressed (press_release gpio press release m) = false /\
  button_interrupt (press_release gpio press release m) = true /\
  led_pattern (press_release gpio press release m)
  = (led_pattern m + 1) mod MODE_MAX.
Proof.
  intros Hp Hr Hrange. unfold press_release.
  destruct (press_sets_pressed gpio press m Hp) as (H1 & _ & H3).
  rewrite <- H3.
  apply release_when_pressed; auto. now rewrite H3.
Qed.

Lemma poll_keeps_pattern (n : nat) (m : machine) :
  led_pattern (Nat.iter n poll m) = led_pattern m.
Proof.
  induction n as [|n IH]; simpl; [reflexivity|].
  rewrite <- IH. unfold poll at 1, get_interrupted.
  destruct (button_interrupt (Nat.iter n poll m)); reflexivity.
Qed.

Lemma press_release_iter (gpio press release : Z) (m : machine) (n : nat) :
  is_press press = true ->
  is_release release = true ->
  0 <= led_pattern m < MODE_MAX ->
  led_pattern (Nat.iter n (press_release gpio press release) m)
  = (led_pattern m + Z.of_nat n) mod MODE_MAX.
Proof.
  intros Hp Hr Hrange. induction n as [|n IH].
  - simpl. rewrite Z.add_0_r, Z.mod_small; auto.
  - rewrite Nat.iter_succ.
    destruct (press_release_spec gpio press release
                (Nat.iter n (press_release gpio press release) m) Hp Hr)
      as (_ & _ & H).
    + rewrite IH. apply Z.mod_pos_bound. unfold MODE_MAX. lia.
    + rewrite H, IH, Z.add_mod_idemp_l by (unfold MODE_MAX; lia).
      f_equal. lia.
Qed.

(** C7: from any mode state (the counter in [0, MODE_MAX)), however many
    polls came first, a press edge followed by a release edge leaves
    [button_interrupt] set and [led_pattern] increased by one modulo
    [MODE_MAX]; after [MODE_MAX] such pairs [led_pattern] is back at its
    starting value. *)
Theorem press_release_advances_mode
        (gpio press release : Z) (polls : nat) (m : machine) :
  is_press press = true ->
  is_release release = true ->
  0 <= led_pattern m < MODE_MAX ->
  let m' := press_release gpio press release (Nat.iter polls poll m) in
  button_interrupt m' = true /\
  led_pattern m' = (led_pattern m + 1) mod MODE_MAX /\
  led_pattern (Nat.iter (Z.to_nat MODE_MAX) (press_release gpio press release) m)
  = led_pattern m.
Proof.
  intros Hp Hr Hrange m'.
  destruct (press_release_spec gpio press release (Nat.iter polls poll m) Hp Hr)
    as (_ & Hi & Hpat).
  - now rewrite poll_keeps_pattern.
  - rewrite poll_keeps_pattern in Hpat.
    repeat split; auto.
    rewrite press_release_iter by auto.
    rewrite Z2Nat.id by (unfold MODE_MAX; lia).
    replace (led_pattern m + MODE_MAX) with (led_pattern m + 1 * MODE_MAX) by lia.
    rewrite Z.mod_add by (unfold MODE_MAX; lia).
    apply Z.mod_small. exact Hrange.
Qed.

Lemma press_release_advances_mode_witness :
  let m := Machine false false 5 (fun _ => 0) [] [] 0 in
  let m' := press_release MODE_PIN 4 8 (Nat.iter 3 poll m) in
  button_interrupt m' = true /\
  led_pattern m' = 0 /\
  led_pattern (Nat.iter 6 (press_release MODE_PIN 4 8) m) = 5.
Proof.
  apply (press_release_advances_mode MODE_PIN 4 8 3
           (Machine false false 5 (fun _ => 0) [] [] 0)).
  - reflexivity.
  - reflexivity.
  - unfold MODE_MAX; simpl; lia.
Defined.

Lemma get_interrupted_clears (m : machine) :
  button_interrupt (snd (get_interrupted m)) = false /\
  led_pressed (snd (get_interrupted m)) = led_pressed m /\
  led_pattern (snd (get_interrupted m)) = led_pattern m.
Proof.
  unfold get_interrupted.
  destruct (button_interrupt m) eqn:E; simpl; auto.
Qed.

Lemma get_interrupted_idle (m : machine) :
  button_interrupt m = false -> get_interrupted m = (false, m).
Proof. unfold get_interrupted. now intros ->. Qed.

(** C8: [get_interrupted] returns [button_interrupt] and leaves it clear
    (the machine is untouched when the flag was already clear), so a second
    call right after it returns false; after a completed press-release pair
    the two calls return true, then false. *)
Theorem get_interrupted_poll_and_clear
        (gpio press release : Z) (m : machine) :
  is_press press = true ->
  is_release release = true ->
  fst (get_interrupted m) = button_interrupt m /\
  button_interrupt (snd (get_interrupted m)) = false /\
  (if button_interrupt m then True else snd (get_interrupted m) = m) /\
  fst (get_interrupted (snd (get_interrupted m))) = false /\
  let m' := press_release gpio press release m in
  fst (get_interrupted m') = true /\
  fst (get_interrupted (snd (get_interrupted m'))) = false.
Proof.
  intros Hp Hr.
  assert (Hfst : forall x, fst (get_interrupted x) = button_interrupt x).
  { intros x. unfold get_interrupted. destruct (button_interrupt x); reflexivity. }
  assert (Hsnd : forall x, fst (get_interrupted (snd (get_interrupted x))) = false).
  { intros x. rewrite Hfst. apply get_interrupted_clears. }
  repeat split; auto.
  - apply get_interrupted_clears.
  - destruct (button_interrupt m) eqn:E; [exact I|].
    now rewrite get_interrupted_idle.
  - rewrite Hfst. unfold press_release.
    destruct (press_sets_pressed gpio press m Hp) as (H1 & _ & _).
    unfold is_release in Hr. apply andb_true_iff in Hr as [H4 H8].
    apply negb_true_iff in H4.
    unfold gpio_callback at 1. rewrite H4, H8, H1. reflexivity.
Qed.

Lemma get_interrupted_poll_and_clear_witness :
  let m' := press_release MODE_PIN 4 8 boot in
  fst (get_interrupted m') = true /\
  fst (get_interrupted (snd (get_interrupted m'))) = false.
Proof.
  apply (get_interrupted_poll_and_clear MODE_PIN 4 8 boot); reflexivity.
Defined.

(** ** Pixel encoding *)

Lemma testbit_above (a k n : Z) :
  0 <= a < 2 ^ k -> k <= n -> Z.testbit a n = false.
Proof.
  intros [Ha Hk] Hn.
  destruct (Z.eq_dec a 0) as [->|Hne].
  - apply Z.bits_0.
  - apply Z.bits_above_log2; [exact Ha|].
    assert (Z.log2 a < k) by (apply Z.log2_lt_pow2; lia).
    lia.
Qed.

Lemma lor_shifted (a b k : Z) :
  0 <= k -> 0 <= b < 2 ^ k -> Z.lor (a * 2 ^ k) b = a * 2 ^ k + b.
Proof.
  intros Hk Hb.
  rewrite <- Z.add_lor_land.
  replace (Z.land (a * 2 ^ k) b) with 0; [lia|].
  symmetry. apply Z.bits_inj'. intros n Hn.
  rewrite Z.land_spec, Z.bits_0.
  destruct (Z.lt_ge_cases n k) as [Hlt|Hge].
  - rewrite Z.mul_pow2_bits_low by lia. reflexivity.
  - rewrite (testbit_above b k n) by lia. apply andb_false_r.
Qed.

(** The word [rgb_u32] builds, as arithmetic. *)
Lemma rgb_u32_value (r g b : Z) :
  0 <= r < 256 -> 0 <= g < 256 -> 0 <= b < 256 ->
  rgb_u32 r g b = r * 2 ^ 16 + g * 2 ^ 8 + b.
Proof.
  intros Hr Hg Hb. unfold rgb_u32.
  rewrite !u8_small by assumption.
  rewrite !Z.shiftl_mul_pow2 by lia.
  rewrite !u32_small by lia.
  rewrite Z.lor_comm.
  rewrite (Z.lor_comm (g * 2 ^ 8)).
  rewrite (lor_shifted r (g * 2 ^ 8) 16) by lia.
  rewrite Z.lor_comm.
  replace (r * 2 ^ 16 + g * 2 ^ 8) with ((r * 2 ^ 8 + g) * 2 ^ 8) by lia.
  rewrite lor_shifted by lia. lia.
Qed.

Lemma bytes_of_word (r g b : Z) :
  0 <= r < 256 -> 0 <= g < 256 -> 0 <= b < 256 ->
  let w := r * 2 ^ 16 + g * 2 ^ 8 + b in
  byte2 w = r /\ byte1 w = g /\ byte0 w = b.
Proof.
  intros Hr Hg Hb w. unfold byte2, byte1, byte0, w.
  change 255 with (Z.ones 8).
  rewrite !Z.land_ones, !Z.shiftr_div_pow2 by lia.
  change (2 ^ 16) with 65536. change (2 ^ 8) with 256.
  repeat split.
  - replace ((r * 65536 + g * 256 + b) / 65536) with r
      by (apply Z.div_unique with (r := g * 256 + b); lia).
    apply Z.mod_small; lia.
  - replace ((r * 65536 + g * 256 + b) / 256) with (r * 256 + g)
      by (apply Z.div_unique with (r := b); lia).
    symmetry. apply Z.mod_unique with (q := r); lia.
  - symmetry. apply Z.mod_unique with (q := r * 256 + g); lia.
Qed.

Lemma rgb_u32_bytes (r g b : Z) :
  0 <= r < 256 -> 0 <= g < 256 -> 0 <= b < 256 ->
  byte2 (rgb_u32 r g b) = r /\
  byte1 (rgb_u32 r g b) = g /\
  byte0 (rgb_u32 r g b) = b.
Proof.
  intros Hr Hg Hb. rewrite rgb_u32_value by assumption.
  now apply bytes_of_word.
Qed.

(** C4 (as the code has it): for 8-bit intensities [rgb_u32] builds a 24-bit
    word with red in the most significant channel byte, green in the middle
    one and blue in the least significant one, the natural RGB order. *)
Theorem rgb_u32_orders_red_green_blue (r g b : Z) :
  0 <= r < 256 -> 0 <= g < 256 -> 0 <= b < 256 ->
  0 <= rgb_u32 r g b < 2 ^ 24 /\
  byte2 (rgb_u32 r g b) = r /\
  byte1 (rgb_u32 r g b) = g /\
  byte0 (rgb_u32 r g b) = b.
Proof.
  intros Hr Hg Hb. split.
  - rewrite rgb_u32_value by assumption. lia.
  - now apply rgb_u32_bytes.
Qed.

Lemma rgb_u32_orders_red_green_blue_witness :
  0 <= rgb_u32 1 2 3 < 2 ^ 24 /\
  byte2 (rgb_u32 1 2 3) = 1 /\
  byte1 (rgb_u32 1 2 3) = 2 /\
  byte0 (rgb_u32 1 2 3) = 3.
Proof.
  apply (rgb_u32_orders_red_green_blue 1 2 3); lia.
Defined.

(** C4 as stated fails: for full red the most significant channel byte
    holds the red intensity, not the green one, and the word is not the
    green-red-blue word. *)
Lemma rgb_u32_not_green_first :
  byte2 (rgb_u32 255 0 0) = 255 /\
  rgb_u32 255 0 0 <> spec_grb_word 255 0 0.
Proof.
  split; [reflexivity|]. vm_compute. discriminate.
Qed.

(** ** fade_three: the drawing loop *)

Lemma fade_draw_cell (red grn blu : Z) (todo : nat) :
  forall (ap : nat) (m : machine) (j : nat),
    cell (Fade.draw todo ap red grn blu m) j
    = if ((ap <=? j) && (j <? ap + 3 * todo))%nat
      then fade_colour red grn blu (j - ap)
      else cell m j.
Proof.
  induction todo as [|todo IH]; intros ap m j.
  - simpl. replace (ap + 0)%nat with ap by lia.
    destruct (Nat.leb_spec ap j), (Nat.ltb_spec j ap); try lia; reflexivity.
  - cbn [Fade.draw]. rewrite IH. unfold poke; cbn [cell].
    destruct (Nat.leb_spec (ap + 3) j) as [H3|H3].
    + rewrite (proj2 (Nat.leb_le ap j)) by lia. cbn [andb].
      destruct (Nat.ltb_spec j (ap + 3 + 3 * todo)) as [Hlt|Hge].
      * rewrite (proj2 (Nat.ltb_lt j (ap + 3 * S todo))) by lia.
        unfold fade_colour.
        replace (j - ap)%nat with (j - (ap + 3) + 1 * 3)%nat by lia.
        now rewrite Nat.Div0.mod_add.
      * rewrite (proj2 (Nat.ltb_ge j (ap + 3 * S todo))) by lia.
        destruct (Nat.eqb_spec j (ap + 2)); [lia|].
        destruct (Nat.eqb_spec j (ap + 1)); [lia|].
        destruct (Nat.eqb_spec j ap); [lia|]. reflexivity.
    + cbn [andb].
      destruct (Nat.eqb_spec j (ap + 2)) as [->|N2].
      { rewrite (proj2 (Nat.leb_le ap (ap + 2))),
                (proj2 (Nat.ltb_lt (ap + 2) (ap + 3 * S todo))) by lia.
        replace (ap + 2 - ap)%nat with 2%nat by lia. reflexivity. }
      destruct (Nat.eqb_spec j (ap + 1)) as [->|N1].
      { rewrite (proj2 (Nat.leb_le ap (ap + 1))),
                (proj2 (Nat.ltb_lt (ap + 1) (ap + 3 * S todo))) by lia.
        replace (ap + 1 - ap)%nat with 1%nat by lia. reflexivity. }
      destruct (Nat.eqb_spec j ap) as [->|N0].
      { rewrite Nat.leb_refl,
                (proj2 (Nat.ltb_lt ap (ap + 3 * S todo))) by lia.
        replace (ap - ap)%nat with 0%nat by lia. reflexivity. }
      rewrite (proj2 (Nat.leb_gt ap j)) by lia. reflexivity.
Qed.

Lemma fade_draw_globals (red grn blu : Z) (todo : nat) :
  forall ap m, same_globals m (Fade.draw todo ap red grn blu m).
Proof.
  induction todo as [|todo IH]; intros ap m; cbn [Fade.draw].
  - apply same_globals_refl.
  - eapply same_globals_trans; [|apply IH]. repeat split.
Qed.

(** The stores of the drawing loop, newest first: offsets [ap] up to
    [ap + 3 * todo - 1]. *)
Lemma fade_draw_written (red grn blu : Z) (todo : nat) :
  forall ap m,
    written (Fade.draw todo ap red grn blu m)
    = rev (seq ap (3 * todo)) ++ written m.
Proof.
  induction todo as [|todo IH]; intros ap m; cbn [Fade.draw].
  - reflexivity.
  - rewrite IH. cbn [poke written].
    replace (3 * S todo)%nat with (3 + 3 * todo)%nat by lia.
    rewrite seq_app, rev_app_distr, <- app_assoc.
    f_equal. cbn [seq rev app Nat.add].
    replace (ap + 1)%nat with (S ap) by lia.
    replace (ap + 2)%nat with (S (S ap)) by lia.
    reflexivity.
Qed.

Lemma fade_body_machine (wait count : Z) (n : nat) (l : Fade.locals) (m : machine) :
  let m' := snd (Fade.body wait count n l m) in
  cell m' = cell (Fade.draw n 0 (Fade.red l) (Fade.grn l) (Fade.blu l) m) /\
  written m' = written (Fade.draw n 0 (Fade.red l) (Fade.grn l) (Fade.blu l) m) /\
  same_globals m m'.
Proof.
  unfold Fade.body. cbn [snd].
  destruct (count <=? u16 (Fade.step_no l + 1)); cbn [sleep_ms cell written];
    rewrite led_array_write_cell, led_array_write_written;
    (repeat split; try reflexivity);
    (eapply same_globals_trans;
     [apply fade_draw_globals | apply led_array_write_globals]).
Qed.

Lemma fade_body_cell (wait count : Z) (n : nat) (l : Fade.locals)
      (m : machine) (j : nat) :
  cell (snd (Fade.body wait count n l m)) j
  = if (j <? 3 * n)%nat
    then fade_colour (Fade.red l) (Fade.grn l) (Fade.blu l) j
    else cell m j.
Proof.
  destruct (fade_body_machine wait count n l m) as (-> & _ & _).
  rewrite fade_draw_cell. cbn [Nat.leb andb Nat.add].
  now rewrite Nat.sub_0_r.
Qed.

(** Whatever the length of the buffer, a frame of the fade ends with a
    store to offset [3 * n - 1]. *)
Lemma fade_body_last_store (wait count : Z) (n : nat) (l : Fade.locals)
      (m : machine) :
  hd_error (written (snd (Fade.body wait count (S n) l m)))
  = Some (3 * n + 2)%nat.
Proof.
  destruct (fade_body_machine wait count (S n) l m) as (_ & -> & _).
  rewrite fade_draw_written.
  replace (3 * S n)%nat with (S (3 * n + 2)) by lia.
  rewrite seq_S, rev_app_distr. reflexivity.
Qed.

(** C1, at the call [main] makes for pattern 1: the first frame of
    [fade_three] on the 100 cells of the LED array stores to 300 offsets,
    the last one being offset 299, past the end of the array. *)
Theorem fade_three_stores_past_the_array :
  match Fade.fade_three NUM_PIXELS 255 0 127 3000 1 [[]] boot with
  | Some (_, _, m) =>
      length (written m) = 300%nat /\
      hd_error (written m) = Some 299%nat /\
      (NUM_PIXELS <= 299)%nat /\
      cell m 299 = rgb_u32 0 0 (Z.shiftr 127 3)
  | None => False
  end.
Proof.
  vm_compute. repeat split; try reflexivity.
  repeat (apply le_n || apply le_S).
Qed.

(** ** The other routines store inside the buffer *)

Lemma for_loop_ext (body body' : nat -> machine -> machine) :
  (forall i m, body i m = body' i m) ->
  forall todo idx m, for_loop idx todo body m = for_loop idx todo body' m.
Proof.
  intros H todo. induction todo as [|todo IH]; intros idx m; simpl.
  - reflexivity.
  - now rewrite H, IH.
Qed.

Lemma chase_draw_pokes (n : nat) (bg_on : bool) (l : Chase.locals) (m : machine) :
  Chase.draw n bg_on l m
  = for_loop 0 n
      (fun idx m' =>
         poke idx (if Z.of_nat idx =? size_t_of_int (Chase.clr_pos l)
                   then Chase.clr_fg (Chase.clr_id l)
                   else Chase.clr_bg bg_on (Chase.clr_id l)) m') m.
Proof.
  unfold Chase.draw. apply for_loop_ext. intros i m'.
  now destruct (Z.of_nat i =? size_t_of_int (Chase.clr_pos l)).
Qed.

Lemma led_array_set_in_bounds (n : nat) (colour : Z) (m : machine) :
  in_bounds n m -> in_bounds n (led_array_set n colour m).
Proof. apply for_loop_poke_written with (val := fun _ => colour). lia. Qed.

Lemma step_body_in_bounds (wait : Z) (n : nat) (l : Step.locals) (m : machine) :
  in_bounds n m -> in_bounds n (snd (Step.body wait n l m)).
Proof.
  intros H. unfold in_bounds, Step.body. cbn [snd sleep_ms written].
  rewrite led_array_write_written. now apply led_array_set_in_bounds.
Qed.

Lemma walk_body_in_bounds (period : Z) (n : nat) (l : Walk.locals) (m : machine) :
  in_bounds n m -> in_bounds n (snd (Walk.body period n l m)).
Proof.
  intros H. unfold in_bounds, Walk.body. cbn [snd sleep_ms written].
  rewrite led_array_write_written.
  apply for_loop_poke_written
    with (val := fun i => nth (i mod 3)%nat (Walk.clrs (Walk.next l)) 0);
    [lia | exact H].
Qed.

Lemma chase_body_in_bounds (period : Z) (bg_on : bool) (n : nat)
      (l : Chase.locals) (m : machine) :
  in_bounds n m -> in_bounds n (snd (Chase.body period bg_on n l m)).
Proof.
  intros H. unfold in_bounds, Chase.body. cbn [snd sleep_ms written].
  rewrite led_array_write_written, chase_draw_pokes.
  apply for_loop_poke_written; [lia | exact H].
Qed.

Lemma clear_leds_in_bounds (n : nat) (m : machine) :
  in_bounds n m -> in_bounds n (clear_leds n m).
Proof.
  intros H. unfold in_bounds, clear_leds.
  rewrite led_array_write_written. now apply led_array_set_in_bounds.
Qed.

(** ** fade_three: what a frame leaves in the buffer *)

Lemma fade_colour_bytes (red grn blu : Z) (k : nat) :
  0 <= red < 256 -> 0 <= grn < 256 -> 0 <= blu < 256 ->
  let w := fade_colour red grn blu k in
  (byte2 w, byte1 w, byte0 w)
  = match (k mod 3)%nat with
    | O => (Z.shiftr red 3, 0, 0)
    | 1%nat => (0, Z.shiftr grn 3, 0)
    | _ => (0, 0, Z.shiftr blu 3)
    end.
Proof.
  intros Hr Hg Hb.
  pose proof (shiftr3_range red Hr) as Hr3.
  pose proof (shiftr3_range grn Hg) as Hg3.
  pose proof (shiftr3_range blu Hb) as Hb3.
  unfold fade_colour. cbv zeta.
  destruct (k mod 3)%nat as [|[|r]].
  - destruct (rgb_u32_bytes (Z.shiftr red 3) 0 0) as (-> & -> & ->);
      [lia | lia | lia | reflexivity].
  - destruct (rgb_u32_bytes 0 (Z.shiftr grn 3) 0) as (-> & -> & ->);
      [lia | lia | lia | reflexivity].
  - destruct (rgb_u32_bytes 0 0 (Z.shiftr blu 3)) as (-> & -> & ->);
      [lia | lia | lia | reflexivity].
Qed.

(** A frame drawn from locals whose channels are 8-bit values. *)
Lemma fade_body_interleaves
      (wait count : Z) (n : nat) (l : Fade.locals) (m : machine) (i : nat) :
  0 <= Fade.red l < 256 ->
  0 <= Fade.grn l < 256 ->
  0 <= Fade.blu l < 256 ->
  (i < n)%nat ->
  let w := cell (snd (Fade.body wait count n l m)) i in
  (byte2 w, byte1 w, byte0 w)
  = match (i mod 3)%nat with
    | O => (Z.shiftr (Fade.red l) 3, 0, 0)
    | 1%nat => (0, Z.shiftr (Fade.grn l) 3, 0)
    | _ => (0, 0, Z.shiftr (Fade.blu l) 3)
    end.
Proof.
  intros Hr Hg Hb Hi w.
  unfold w. rewrite fade_body_cell.
  rewrite (proj2 (Nat.ltb_lt i (3 * n))) by lia.
  now apply fade_colour_bytes.
Qed.

(** C2 as stated fails: with six cells and the channels of pattern 1, the
    frame is red, green, blue, red, green, blue; cell 3, in the second
    third, carries red and no green, and the buffer is not the one made of
    thirds. *)
Lemma fade_three_not_in_thirds :
  let m := snd (Fade.body 12 250 6 (Fade.start 255 0 127 1) boot) in
  buffer 6 m = [0x1f0000; 0; 0x00000f; 0x1f0000; 0; 0x00000f] /\
  byte2 (cell m 3) = 31 /\
  buffer 6 m <> spec_fade_thirds 6 255 0 127.
Proof.
  vm_compute. repeat split; discriminate.
Qed.

(** ** Frames *)

Lemma frames_locals {L : Type} (body : L -> machine -> L * machine)
      (next : L -> L) :
  (forall l m, fst (body l m) = next l) ->
  forall k l m, fst (frames body k l m) = Nat.iter k next l.
Proof.
  intros H k. induction k as [|k IH]; intros l m.
  - reflexivity.
  - cbn [frames]. specialize (H l m).
    destruct (body l m) as [l' m']. cbn [fst] in H. subst l'.
    rewrite IH. symmetry. apply Nat.iter_succ_r.
Qed.

Lemma frames_inv {L : Type} (body : L -> machine -> L * machine)
      (P : machine -> Prop) :
  (forall l m, P m -> P (snd (body l m))) ->
  forall k l m, P m -> P (snd (frames body k l m)).
Proof.
  intros H k. induction k as [|k IH]; intros l m Hm.
  - exact Hm.
  - cbn [frames]. specialize (H l m Hm).
    destruct (body l m) as [l' m']. now apply IH.
Qed.

(** With the button left alone the loop runs frame after frame and does not
    return. *)
Lemma frame_loop_quiet {L : Type} (body : L -> machine -> L * machine) :
  (forall l m, same_globals m (snd (body l m))) ->
  forall k l m,
    button_interrupt m = false ->
    frame_loop body (repeat [] k) l m
    = (None, fst (frames body k l m), snd (frames body k l m)).
Proof.
  intros H k. induction k as [|k IH]; intros l m Hm.
  - reflexivity.
  - cbn [repeat frame_loop frames deliver fold_left].
    rewrite get_interrupted_idle by exact Hm.
    destruct (H l m) as (_ & Hb & _).
    destruct (body l m) as [l' m']. cbn [snd] in Hb.
    apply IH. congruence.
Qed.

Lemma fade_body_globals (wait count : Z) (n : nat) (l : Fade.locals) (m : machine) :
  same_globals m (snd (Fade.body wait count n l m)).
Proof. apply fade_body_machine. Qed.

Lemma step_body_globals (wait : Z) (n : nat) (l : Step.locals) (m : machine) :
  same_globals m (snd (Step.body wait n l m)).
Proof.
  unfold Step.body. cbn [snd].
  eapply same_globals_trans; [apply for_loop_poke_globals with (val := fun _ => Step.colour l)|].
  eapply same_globals_trans; [apply led_array_write_globals|].
  repeat split.
Qed.

Lemma chase_body_globals (period : Z) (bg_on : bool) (n : nat)
      (l : Chase.locals) (m : machine) :
  same_globals m (snd (Chase.body period bg_on n l m)).
Proof.
  unfold Chase.body. cbn [snd]. rewrite chase_draw_pokes.
  eapply same_globals_trans; [apply for_loop_poke_globals|].
  eapply same_globals_trans; [apply led_array_write_globals|].
  repeat split.
Qed.

Lemma walk_body_globals (period : Z) (n : nat) (l : Walk.locals) (m : machine) :
  same_globals m (snd (Walk.body period n l m)).
Proof.
  unfold Walk.body. cbn [snd].
  eapply same_globals_trans;
    [apply for_loop_poke_globals
       with (val := fun i => nth (i mod 3)%nat (Walk.clrs (Walk.next l)) 0)|].
  eapply same_globals_trans; [apply led_array_write_globals|].
  repeat split.
Qed.

(** ** fade_three: the channel values *)

Lemma fade_frames_locals (wait count : Z) (n k : nat) (l : Fade.locals) (m : machine) :
  fst (frames (Fade.body wait count n) k l m) = Nat.iter k (Fade.next count) l.
Proof. apply frames_locals. reflexivity. Qed.

Lemma fade_channels_in_range (count red grn blu adj : Z) (k : nat) :
  let l := Nat.iter k (Fade.next count) (Fade.start red grn blu adj) in
  0 <= Fade.red l < 256 /\ 0 <= Fade.grn l < 256 /\ 0 <= Fade.blu l < 256.
Proof.
  cbv zeta. destruct k as [|k].
  - cbn. repeat split; apply u8_range.
  - rewrite Nat.iter_succ. unfold Fade.next at 1 3 5.
    cbn [Fade.red Fade.grn Fade.blu]. unfold Fade.bump.
    repeat split; apply u8_range.
Qed.

(** C2 (as the code has it): at every frame of the fade, whatever the
    length of the buffer, cell [i] of the buffer is left with one channel
    only, chosen by [i mod 3]: red for 0, green for 1, blue for 2, the other
    two channels zero; the channel carries the 8-bit value of the frame
    shifted right by three, a value below 32. *)
Theorem fade_three_interleaves_channels
        (wait count red grn blu adj : Z) (n k : nat) (m : machine) (i : nat) :
  (i < n)%nat ->
  let top := frames (Fade.body wait count n) k (Fade.start red grn blu adj) m in
  let l := fst top in
  let w := cell (snd (Fade.body wait count n l (snd top))) i in
  (byte2 w, byte1 w, byte0 w)
  = match (i mod 3)%nat with
    | O => (Z.shiftr (Fade.red l) 3, 0, 0)
    | 1%nat => (0, Z.shiftr (Fade.grn l) 3, 0)
    | _ => (0, 0, Z.shiftr (Fade.blu l) 3)
    end /\
  0 <= Fade.red l < 256 /\ 0 <= Z.shiftr (Fade.red l) 3 < 32 /\
  0 <= Fade.grn l < 256 /\ 0 <= Z.shiftr (Fade.grn l) 3 < 32 /\
  0 <= Fade.blu l < 256 /\ 0 <= Z.shiftr (Fade.blu l) 3 < 32.
Proof.
  intros Hi. cbv zeta.
  rewrite fade_frames_locals.
  destruct (fade_channels_in_range count red grn blu adj k) as (Hr & Hg & Hb).
  split; [now apply fade_body_interleaves|].
  auto 10 using shiftr3_range.
Qed.

Lemma fade_three_interleaves_channels_witness :
  let top := frames (Fade.body 12 250 6) 2 (Fade.start 255 0 127 1) boot in
  let l := fst top in
  let w := cell (snd (Fade.body 12 250 6 l (snd top))) 3 in
  (byte2 w, byte1 w, byte0 w) = (31, 0, 0) /\
  0 <= Fade.red l < 256 /\ 0 <= Z.shiftr (Fade.red l) 3 < 32 /\
  0 <= Fade.grn l < 256 /\ 0 <= Z.shiftr (Fade.grn l) 3 < 32 /\
  0 <= Fade.blu l < 256 /\ 0 <= Z.shiftr (Fade.blu l) 3 < 32.
Proof.
  apply (fade_three_interleaves_channels 12 250 255 0 127 1 6 2 boot 3).
  lia.
Defined.

(** C10: [main] starts pattern 1 as [fade_three(.., 255, 0, 127, 3000, 1)],
    which waits 12 ms and counts 250 steps; 510 frames later the three
    channel values are 255, 0 and 127 again (and so are the three
    directions), having passed through the other end of the range after 255
    frames. *)
Theorem fade_three_round_trip (m : machine) :
  dispatch 1 = Some (CallFade 255 0 127 3000 1) /\
  Fade.wait_ms 3000 = 12 /\
  Fade.step_count 3000 = Some 250 /\
  let at_frame k :=
    fst (frames (Fade.body 12 250 NUM_PIXELS) k (Fade.start 255 0 127 1) m) in
  (Fade.red (at_frame 0%nat), Fade.grn (at_frame 0%nat), Fade.blu (at_frame 0%nat))
  = (255, 0, 127) /\
  (Fade.red (at_frame 255%nat), Fade.grn (at_frame 255%nat)) = (0, 255) /\
  (Fade.red (at_frame 510%nat), Fade.grn (at_frame 510%nat), Fade.blu (at_frame 510%nat))
  = (255, 0, 127) /\
  (Fade.d_red (at_frame 510%nat), Fade.d_grn (at_frame 510%nat),
   Fade.d_blu (at_frame 510%nat))
  = (Fade.d_red (at_frame 0%nat), Fade.d_grn (at_frame 0%nat),
     Fade.d_blu (at_frame 0%nat)).
Proof.
  do 3 (split; [reflexivity|]).
  cbv beta zeta. rewrite !fade_frames_locals. vm_compute. repeat split.
Qed.

Lemma fade_next_channels (count : Z) (l : Fade.locals) :
  let l' := Fade.next count l in
  (Fade.red l', Fade.d_red l') = fade_channel (Fade.red l, Fade.d_red l) /\
  (Fade.grn l', Fade.d_grn l') = fade_channel (Fade.grn l, Fade.d_grn l) /\
  (Fade.blu l', Fade.d_blu l') = fade_channel (Fade.blu l, Fade.d_blu l).
Proof. repeat split. Qed.

(** With the adjustment rate 1 a channel starts out reflecting ... *)
Lemma fade_direction_reflecting (v : Z) :
  0 <= v <= 255 -> reflecting (v, Fade.direction v 1).
Proof.
  intros Hv. unfold reflecting, Fade.direction. cbn [fst snd].
  destruct (Z.ltb_spec 127 v); cbn; repeat split; try lia.
Qed.

(** ... and stays so: each frame moves it by exactly one in its direction,
    without wrapping. *)
Lemma fade_channel_reflecting (vd : Z * Z) :
  reflecting vd ->
  fst (fade_channel vd) = fst vd + snd vd /\ reflecting (fade_channel vd).
Proof.
  destruct vd as [v d]. unfold reflecting, fade_channel. cbn [fst snd].
  intros (Hv & Hd & H0 & H255).
  assert (Hb : Fade.bump v d = v + d).
  { unfold Fade.bump. apply u8_small. lia. }
  rewrite Hb. split; [reflexivity|].
  unfold Fade.turn.
  destruct (Z.eqb_spec (v + d) 255), (Z.eqb_spec (v + d) 0);
    repeat split; try lia.
Qed.

(** With the adjustment rate 1, from any 8-bit starting value, a channel
    reflects at every frame. *)
Lemma fade_rate_one_reflects (v : Z) (k : nat) :
  0 <= v <= 255 ->
  reflecting (Nat.iter k fade_channel (v, Fade.direction v 1)).
Proof.
  intros Hv. induction k as [|k IH].
  - now apply fade_direction_reflecting.
  - rewrite Nat.iter_succ. now apply fade_channel_reflecting.
Qed.

(** C5, at the call [main] makes for pattern 3 (adjustment rate 2): red
    comes down from 255 in steps of two to 1 at frame 127; the next frame
    takes it to 255 by wrapping modulo 256 and sets its step to -1, so
    frame 129 shows 254.  Green goes up to 254, wraps to 0 and goes on in
    steps of one. *)
Theorem fade_three_rate_two_wraps (m : machine) :
  dispatch 3 = Some (CallFade 255 0 127 3000 2) /\
  let at_frame k :=
    fst (frames (Fade.body 12 250 NUM_PIXELS) k (Fade.start 255 0 127 2) m) in
  (Fade.red (at_frame 127%nat), Fade.d_red (at_frame 127%nat)) = (1, -2) /\
  (Fade.red (at_frame 128%nat), Fade.d_red (at_frame 128%nat)) = (255, -1) /\
  Fade.red (at_frame 129%nat) = 254 /\
  (Fade.grn (at_frame 127%nat), Fade.d_grn (at_frame 127%nat)) = (254, 2) /\
  (Fade.grn (at_frame 128%nat), Fade.d_grn (at_frame 128%nat)) = (0, 1) /\
  Fade.grn (at_frame 129%nat) = 1.
Proof.
  split; [reflexivity|].
  cbv beta zeta. rewrite !fade_frames_locals. vm_compute. repeat split.
Qed.

(** ** step_three *)

Ltac Zify.zify_post_hook ::= Z.to_euclidean_division_equations.

Lemma step_frames_locals (wait : Z) (n k : nat) (l : Step.locals) (m : machine) :
  fst (frames (Step.body wait n) k l m) = Nat.iter k Step.next l.
Proof. apply frames_locals. reflexivity. Qed.

(** The locals at the top of frame [k]: phase [(k / 255) mod 3], ramp
    [k mod 255]. *)
Lemma step_locals_at (k : nat) :
  Nat.iter k Step.next Step.start
  = Step.Locals (Z.of_nat ((k / 255) mod 3)) (Z.of_nat (k mod 255)).
Proof.
  induction k as [|k IH].
  - reflexivity.
  - rewrite Nat.iter_succ, IH. unfold Step.next. cbn [Step.clr_value Step.clr_index].
    assert (Hr : (k mod 255 < 255)%nat) by lia.
    rewrite u8_small by lia.
    destruct (Z.eqb_spec (Z.of_nat (k mod 255) + 1) 255) as [E|E].
    + rewrite s32_small by (unfold INT_MAX; lia).
      destruct (Z.ltb_spec 2 (Z.of_nat ((k / 255) mod 3) + 1)); f_equal; lia.
    + f_equal; lia.
Qed.

Lemma buffer_uniform (n : nat) (m : machine) (c : Z) :
  (forall i, (i < n)%nat -> cell m i = c) -> buffer n m = repeat c n.
Proof.
  unfold buffer. induction n as [|n IH]; intros H.
  - reflexivity.
  - rewrite seq_S, map_app, IH by (intros; apply H; lia).
    cbn [map Nat.add]. rewrite H by lia.
    symmetry. apply repeat_cons.
Qed.

Lemma step_body_buffer (wait : Z) (n : nat) (l : Step.locals) (m : machine) :
  buffer n (snd (Step.body wait n l m)) = repeat (Step.colour l) n.
Proof.
  apply buffer_uniform. intros i Hi.
  unfold Step.body. cbn [snd sleep_ms cell].
  rewrite led_array_write_cell. unfold led_array_set.
  rewrite for_loop_poke_cell with (val := fun _ => Step.colour l).
  now rewrite (proj2 (Nat.ltb_lt i n)).
Qed.

Lemma step_colour_bytes (p : nat) (v : Z) :
  (p < 3)%nat -> 0 <= v < 256 ->
  let c := Step.colour (Step.Locals (Z.of_nat p) v) in
  (byte2 c, byte1 c, byte0 c)
  = match p with
    | O => (Z.shiftr v 3, 0, 0)
    | 1%nat => (0, Z.shiftr v 3, 0)
    | _ => (0, 0, Z.shiftr v 3)
    end.
Proof.
  intros Hp Hv. pose proof (shiftr3_range v Hv) as H3.
  destruct p as [|[|[|p]]]; try lia; cbv zeta;
    unfold Step.colour; cbn [Step.clr_index Step.clr_value Z.of_nat Z.eqb
                             Pos.of_succ_nat Pos.succ Pos.eqb].
  - destruct (rgb_u32_bytes (Z.shiftr v 3) 0 0) as (-> & -> & ->);
      [lia | lia | lia | reflexivity].
  - destruct (rgb_u32_bytes 0 (Z.shiftr v 3) 0) as (-> & -> & ->);
      [lia | lia | lia | reflexivity].
  - destruct (rgb_u32_bytes 0 0 (Z.shiftr v 3)) as (-> & -> & ->);
      [lia | lia | lia | reflexivity].
Qed.

(** C6 (as the code has it): at frame [k] the phase is [(k / 255) mod 3]
    (red, green, blue, and round again) and the ramp value is [k mod 255];
    the frame fills the whole buffer with one colour, which carries the ramp
    value shifted right by three in the channel of the phase and zero in the
    other two; from one frame to the next the ramp goes up by one, except
    that after 254 it restarts at 0 (255 is never shown), and the phase moves
    on exactly then. *)
Theorem step_three_phases (wait : Z) (n k : nat) (m : machine) :
  let top := frames (Step.body wait n) k Step.start m in
  let l := fst top in
  let l' := fst (frames (Step.body wait n) (S k) Step.start m) in
  let c := Step.colour l in
  let v := Z.shiftr (Z.of_nat (k mod 255)) 3 in
  Step.clr_index l = Z.of_nat ((k / 255) mod 3) /\
  Step.clr_value l = Z.of_nat (k mod 255) /\
  buffer n (snd (Step.body wait n l (snd top))) = repeat c n /\
  (byte2 c, byte1 c, byte0 c)
  = match ((k / 255) mod 3)%nat with
    | O => (v, 0, 0)
    | 1%nat => (0, v, 0)
    | _ => (0, 0, v)
    end /\
  Step.clr_value l'
  = (if (k mod 255 =? 254)%nat then 0 else Step.clr_value l + 1) /\
  Step.clr_index l'
  = (if (k mod 255 =? 254)%nat then (Step.clr_index l + 1) mod 3
     else Step.clr_index l).
Proof.
  cbv zeta. rewrite !step_frames_locals, !step_locals_at.
  cbn [Step.clr_index Step.clr_value].
  split; [reflexivity|]. split; [reflexivity|].
  split; [apply step_body_buffer|].
  split; [apply step_colour_bytes; lia|].
  destruct (Nat.eqb_spec (k mod 255) 254) as [E|E]; split; lia.
Qed.

(** C6 as stated fails: the ramp stops at 254.  Frame 254 shows 254, frame
    255 is the first frame of the green phase with the ramp at 0, and no
    frame has the ramp at 255. *)
Lemma step_three_ramp_stops_at_254 :
  let at_frame k :=
    fst (frames (Step.body 12 NUM_PIXELS) k Step.start boot) in
  at_frame 254%nat = Step.Locals 0 254 /\
  at_frame 255%nat = Step.Locals 1 0 /\
  ~ (exists k, Step.clr_value (at_frame k) = 255).
Proof.
  cbv beta zeta. split; [|split].
  - now rewrite step_frames_locals.
  - now rewrite step_frames_locals.
  - intros [k Hk]. rewrite step_frames_locals, step_locals_at in Hk.
    cbn [Step.clr_value] in Hk. lia.
Qed.

(** ** chase_colour *)

Lemma chase_frames_locals (period : Z) (bg_on : bool) (n k : nat)
      (l : Chase.locals) (m : machine) :
  fst (frames (Chase.body period bg_on n) k l m) = Nat.iter k (Chase.next n) l.
Proof. apply frames_locals. reflexivity. Qed.

Section ChaseTrip.
Variable n : nat.
Hypothesis n_pos : (1 <= n)%nat.
Hypothesis n_int : Z.of_nat n <= INT_MAX.

(** Going up, below the last cell. *)
Lemma chase_next_up (j : nat) (c : Z) :
  (S j < n)%nat ->
  Chase.next n (Chase.Locals (Z.of_nat j) c 1)
  = Chase.Locals (Z.of_nat (S j)) c 1.
Proof.
  intros Hj. unfold Chase.next, size_t_of_int, INT_MAX in *.
  cbn [Chase.clr_dir Chase.clr_pos Chase.clr_id Z.eqb Pos.eqb].
  rewrite s32_small by (unfold INT_MAX; lia).
  rewrite u32_small by lia.
  destruct (Z.eqb_spec (Z.of_nat j + 1) (Z.of_nat n)); [lia|].
  f_equal. lia.
Qed.

(** Going up, on the last cell: the direction turns, the position stays. *)
Lemma chase_next_top (c : Z) :
  Chase.next n (Chase.Locals (Z.of_nat (n - 1)) c 1)
  = Chase.Locals (Z.of_nat (n - 1)) c (-1).
Proof.
  unfold Chase.next, size_t_of_int, INT_MAX in *.
  cbn [Chase.clr_dir Chase.clr_pos Chase.clr_id Z.eqb Pos.eqb].
  rewrite (s32_small (Z.of_nat (n - 1) + 1)) by (unfold INT_MAX; lia).
  rewrite u32_small by lia.
  destruct (Z.eqb_spec (Z.of_nat (n - 1) + 1) (Z.of_nat n)); [|lia].
  rewrite s32_small by (unfold INT_MAX; lia).
  f_equal. lia.
Qed.

(** Going down, above the first cell. *)
Lemma chase_next_down (j : nat) (c : Z) :
  (0 < j < n)%nat ->
  Chase.next n (Chase.Locals (Z.of_nat j) c (-1))
  = Chase.Locals (Z.of_nat (j - 1)) c (-1).
Proof.
  intros Hj. unfold Chase.next, INT_MAX in *.
  cbn [Chase.clr_dir Chase.clr_pos Chase.clr_id Z.eqb Pos.eqb].
  rewrite s32_small by (unfold INT_MAX; lia).
  destruct (Z.ltb_spec (Z.of_nat j - 1) 0); [lia|].
  f_equal. lia.
Qed.

(** Going down, on the first cell: the direction turns, the position stays
    and the colour moves on. *)
Lemma chase_next_bottom (c : Z) :
  Chase.next n (Chase.Locals 0 c (-1)) = Chase.Locals 0 (Chase.rotate c) 1.
Proof. reflexivity. Qed.

(** [j] frames into a round trip that starts with colour [c]. *)
Lemma chase_trip (c : Z) (j : nat) :
  (j < 2 * n)%nat ->
  Nat.iter j (Chase.next n) (Chase.Locals 0 c 1)
  = Chase.Locals (Z.of_nat (chase_position n j)) c (chase_direction n j).
Proof.
  unfold chase_position, chase_direction.
  induction j as [|j IH]; intros Hj.
  - rewrite (proj2 (Nat.ltb_lt 0 n)) by lia. reflexivity.
  - rewrite Nat.iter_succ, IH by lia.
    destruct (Nat.ltb_spec j n) as [Hlt|Hge].
    + destruct (Nat.ltb_spec (S j) n) as [Hlt'|Hge'].
      * now apply chase_next_up.
      * replace j with (n - 1)%nat by lia.
        rewrite chase_next_top. f_equal. lia.
    + rewrite (proj2 (Nat.ltb_ge (S j) n)) by lia.
      rewrite chase_next_down by lia. f_equal. lia.
Qed.

(** A full round trip: [2 * n] frames, back on cell 0 going up, with the
    next colour. *)
Lemma chase_round_trip (c : Z) :
  Nat.iter (2 * n) (Chase.next n) (Chase.Locals 0 c 1)
  = Chase.Locals 0 (Chase.rotate c) 1.
Proof.
  replace (2 * n)%nat with (S (2 * n - 1)) by lia.
  rewrite Nat.iter_succ, chase_trip by lia.
  unfold chase_position, chase_direction.
  rewrite (proj2 (Nat.ltb_ge (2 * n - 1) n)) by lia.
  replace (2 * n - 1 - (2 * n - 1))%nat with 0%nat by lia.
  apply chase_next_bottom.
Qed.

Lemma chase_round_trips (q : nat) :
  Nat.iter (q * (2 * n)) (Chase.next n) Chase.start
  = Chase.Locals 0 (Nat.iter q Chase.rotate Chase.chr_r) 1.
Proof.
  induction q as [|q IH].
  - reflexivity.
  - replace (S q * (2 * n))%nat with (2 * n + q * (2 * n))%nat by lia.
    rewrite Nat.iter_add, IH, chase_round_trip. reflexivity.
Qed.

(** The locals at the top of frame [k]. *)
Lemma chase_locals_at (k : nat) :
  Nat.iter k (Chase.next n) Chase.start
  = Chase.Locals (Z.of_nat (chase_position n (k mod (2 * n))))
                 (Nat.iter (k / (2 * n)) Chase.rotate Chase.chr_r)
                 (chase_direction n (k mod (2 * n))).
Proof.
  assert (Hn : (2 * n <> 0)%nat) by lia.
  pose proof (Nat.div_mod_eq k (2 * n)) as E.
  pose proof (Nat.mod_upper_bound k (2 * n) Hn) as Hr.
  revert E Hr.
  generalize (k mod (2 * n))%nat as r. generalize (k / (2 * n))%nat as q.
  intros q r -> Hr.
  rewrite Nat.add_comm, Nat.iter_add.
  rewrite (Nat.mul_comm (2 * n)), chase_round_trips.
  now apply chase_trip.
Qed.

End ChaseTrip.

Lemma chase_rotate_cycle (q : nat) :
  Nat.iter q Chase.rotate Chase.chr_r
  = nth (q mod 3) [Chase.chr_r; Chase.chr_g; Chase.chr_b] 0.
Proof.
  induction q as [|q IH].
  - reflexivity.
  - rewrite Nat.iter_succ, IH.
    assert (H : (q mod 3 = 0 /\ S q mod 3 = 1 \/
                 q mod 3 = 1 /\ S q mod 3 = 2 \/
                 q mod 3 = 2 /\ S q mod 3 = 0)%nat) by lia.
    destruct H as [[-> ->]|[[-> ->]|[-> ->]]]; reflexivity.
Qed.

Lemma chase_position_bound (n j : nat) :
  (1 <= n)%nat -> (j < 2 * n)%nat -> (chase_position n j < n)%nat.
Proof.
  intros Hn Hj. unfold chase_position.
  destruct (Nat.ltb_spec j n); lia.
Qed.

(** The frame drawn from locals whose position is cell [p]. *)
Lemma chase_body_buffer (period : Z) (bg_on : bool) (n p : nat) (c d : Z)
      (m : machine) :
  Z.of_nat n <= INT_MAX ->
  (p < n)%nat ->
  buffer n (snd (Chase.body period bg_on n (Chase.Locals (Z.of_nat p) c d) m))
  = map (fun i => if (i =? p)%nat then Chase.clr_fg c else Chase.clr_bg bg_on c)
        (seq 0 n).
Proof.
  intros Hn Hp. unfold buffer. apply map_ext_in. intros i Hi.
  apply in_seq in Hi.
  unfold Chase.body. cbn [snd sleep_ms cell].
  rewrite led_array_write_cell, chase_draw_pokes, for_loop_poke_cell.
  rewrite (proj2 (Nat.ltb_lt i n)) by lia.
  cbn [Chase.clr_pos Chase.clr_id]. unfold size_t_of_int.
  rewrite u32_small by (unfold INT_MAX in Hn; lia).
  destruct (Z.eqb_spec (Z.of_nat i) (Z.of_nat p)), (Nat.eqb_spec i p);
    try lia; reflexivity.
Qed.

(** C9: in a buffer of [n >= 1] cells (the length fits an [int]), at every
    frame [k] the position is a cell of the buffer: [2 * n] frames make a
    round trip, up from cell 0 to cell [n - 1] and down again to cell 0; the
    colour is the one reached from red after one step of red, green, blue
    per completed round trip, [k / (2 * n)] steps in all; and the frame
    drawn shows the foreground colour on the cell of the position and the
    background colour on every other cell. *)
Theorem chase_colour_bounces
        (period : Z) (bg_on : bool) (n k : nat) (m : machine) :
  (1 <= n)%nat ->
  Z.of_nat n <= INT_MAX ->
  let top := frames (Chase.body period bg_on n) k Chase.start (clear_leds n m) in
  let l := fst top in
  let shown := snd (Chase.body period bg_on n l (snd top)) in
  let p := chase_position n (k mod (2 * n)) in
  0 <= Chase.clr_pos l <= Z.of_nat n - 1 /\
  Chase.clr_pos l = Z.of_nat p /\
  Chase.clr_id l
  = nth ((k / (2 * n)) mod 3) [Chase.chr_r; Chase.chr_g; Chase.chr_b] 0 /\
  buffer n shown
  = map (fun i => if (i =? p)%nat then Chase.clr_fg (Chase.clr_id l)
                  else Chase.clr_bg bg_on (Chase.clr_id l))
        (seq 0 n).
Proof.
  intros Hn Hint. cbv zeta.
  assert (Hp : (chase_position n (k mod (2 * n)) < n)%nat).
  { apply chase_position_bound; [exact Hn|].
    apply Nat.mod_upper_bound. lia. }
  rewrite !chase_frames_locals, !(chase_locals_at n Hn Hint).
  cbn [Chase.clr_pos Chase.clr_id].
  split; [lia|]. split; [reflexivity|].
  split; [apply chase_rotate_cycle|].
  now apply chase_body_buffer.
Qed.

Lemma chase_colour_bounces_witness :
  let top := frames (Chase.body 100 false 6) 17 Chase.start (clear_leds 6 boot) in
  let l := fst top in
  let shown := snd (Chase.body 100 false 6 l (snd top)) in
  0 <= Chase.clr_pos l <= 5 /\
  Chase.clr_pos l = 5 /\
  Chase.clr_id l = Chase.chr_g /\
  buffer 6 shown = [0; 0; 0; 0; 0; 0x000f00].
Proof.
  apply (chase_colour_bounces 100 false 6 17 boot).
  - lia.
  - unfold INT_MAX. simpl. lia.
Defined.

(** C3 (as the code has it): six cells, background off, red first.  Frames
    0 to 5 light cells 0, 1, 2, 3, 4, 5 going up, the direction still being
    up at the top of frame 5; at frame 6 the direction has turned and the
    lit cell is still cell 5; cell 4 is lit at frame 7. *)
Theorem chase_six_cells :
  let top k := frames (Chase.body 100 false 6) k Chase.start (clear_leds 6 boot) in
  let shown k := buffer 6 (snd (Chase.body 100 false 6 (fst (top k)) (snd (top k)))) in
  let red := 0x0f0000 in
  map (fun k => Chase.clr_pos (fst (top k))) (seq 0 8) = [0; 1; 2; 3; 4; 5; 5; 4] /\
  map (fun k => Chase.clr_dir (fst (top k))) (seq 0 8) = [1; 1; 1; 1; 1; 1; -1; -1] /\
  map shown (seq 0 8)
  = [ [red; 0; 0; 0; 0; 0]; [0; red; 0; 0; 0; 0]; [0; 0; red; 0; 0; 0];
      [0; 0; 0; red; 0; 0]; [0; 0; 0; 0; red; 0]; [0; 0; 0; 0; 0; red];
      [0; 0; 0; 0; 0; red]; [0; 0; 0; 0; red; 0] ].
Proof.
  vm_compute. repeat split.
Qed.

(** C3 as stated fails at frame 6: the position is 5, not 4, and cell 4 is
    dark in the frame drawn. *)
Lemma chase_six_cells_frame_six :
  let top := frames (Chase.body 100 false 6) 6 Chase.start (clear_leds 6 boot) in
  let shown := buffer 6 (snd (Chase.body 100 false 6 (fst top) (snd top))) in
  Chase.clr_pos (fst top) <> 4 /\
  Chase.clr_dir (fst top) = -1 /\
  nth 4 shown 0 = 0 /\
  nth 5 shown 0 = 0x0f0000.
Proof.
  vm_compute. repeat split. discriminate.
Qed.

(** ** The routines as [main] runs them *)

Lemma clear_leds_globals (n : nat) (m : machine) :
  same_globals m (clear_leds n m).
Proof.
  unfold clear_leds, led_array_set.
  eapply same_globals_trans;
    [apply for_loop_poke_globals with (val := fun _ => 0)
    |apply led_array_write_globals].
Qed.

(** While the button is left alone [chase_colour] does not return, and its
    iterations are the frames counted above. *)
Lemma chase_colour_quiet (n : nat) (period : Z) (bg_on : bool) (k : nat)
      (m : machine) :
  button_interrupt m = false ->
  Chase.chase_colour n period bg_on (repeat [] k) m
  = (None,
     fst (frames (Chase.body (u16 period) bg_on n) k Chase.start (clear_leds n m)),
     snd (frames (Chase.body (u16 period) bg_on n) k Chase.start (clear_leds n m))).
Proof.
  intros H. unfold Chase.chase_colour.
  apply frame_loop_quiet.
  - intros l m'. apply chase_body_globals.
  - destruct (clear_leds_globals n m) as (_ & -> & _). exact H.
Qed.

Lemma step_three_quiet (n : nat) (period : Z) (k : nat) (m : machine) :
  button_interrupt m = false ->
  Step.step_three n period (repeat [] k) m
  = (None,
     fst (frames (Step.body (Step.wait_ms (u16 period)) n) k Step.start m),
     snd (frames (Step.body (Step.wait_ms (u16 period)) n) k Step.start m)).
Proof.
  intros H. unfold Step.step_three.
  apply frame_loop_quiet; [|exact H].
  intros l m'. apply step_body_globals.
Qed.

(** The two calls of [fade_three] in [main], period 3000. *)
Lemma fade_three_quiet (n : nat) (red grn blu adj : Z) (k : nat) (m : machine) :
  button_interrupt m = false ->
  Fade.fade_three n red grn blu 3000 adj (repeat [] k) m
  = Some (None,
          fst (frames (Fade.body 12 250 n) k (Fade.start red grn blu adj) m),
          snd (frames (Fade.body 12 250 n) k (Fade.start red grn blu adj) m)).
Proof.
  intros H. unfold Fade.fade_three.
  change (Fade.step_count (u16 3000)) with (Some 250).
  change (Fade.wait_ms (u16 3000)) with 12.
  cbv iota beta. f_equal. apply frame_loop_quiet; [|exact H].
  intros l m'. apply fade_body_globals.
Qed.

(** The three routines that stay inside the buffer do so frame after
    frame. *)
Lemma chase_frames_in_bounds (period : Z) (bg_on : bool) (n k : nat) (m : machine) :
  in_bounds n m ->
  in_bounds n (snd (frames (Chase.body period bg_on n) k Chase.start
                           (clear_leds n m))).
Proof.
  intros H. apply frames_inv.
  - intros l m'. apply chase_body_in_bounds.
  - now apply clear_leds_in_bounds.
Qed.

Lemma step_frames_in_bounds (wait : Z) (n k : nat) (m : machine) :
  in_bounds n m ->
  in_bounds n (snd (frames (Step.body wait n) k Step.start m)).
Proof.
  apply frames_inv. intros l m'. apply step_body_in_bounds.
Qed.

Lemma walk_frames_in_bounds (period : Z) (n k : nat) (m : machine) :
  in_bounds n m ->
  in_bounds n (snd (frames (Walk.body period n) k Walk.start m)).
Proof.
  apply frames_inv. intros l m'. apply walk_body_in_bounds.
Qed.

(** One press and release after start-up: [walk_three] returns at its next
    poll, [main] calls [fade_three], and the first frame of the fade ends
    with the store to offset 299 of the 100-cell array. *)
Example main_reaches_the_fade :
  match main 2 [[4; 8]; []] with
  | Some m => led_pattern m = 1 /\ hd_error (written m) = Some 299%nat
  | None => False
  end.
Proof. vm_compute. split; reflexivity. Qed.

(** * Further properties of the code *)

(** ** The LED array helpers *)

Lemma for_loop_poke_log (val : nat -> Z) (n : nat) (m : machine) :
  let m' := for_loop 0 n (fun i m' => poke i (val i) m') m in
  written m' = rev (seq 0 n) ++ written m /\
  fifo m' = fifo m /\
  slept m' = slept m.
Proof.
  cbv zeta.
  apply (for_loop_inv
           (fun i m' => written m' = rev (seq 0 i) ++ written m /\
                        fifo m' = fifo m /\ slept m' = slept m)
           _ n 0 m).
  - intros i m' _ (Hw & Hf & Hs). cbn [poke written fifo slept].
    rewrite Hw, seq_S, rev_app_distr. auto.
  - auto.
Qed.

Lemma led_array_write_log (n : nat) (m : machine) :
  let m' := led_array_write n m in
  fifo m' = rev (map (fun w => u32 (Z.shiftl w 8)) (buffer n m)) ++ fifo m /\
  slept m' = slept m.
Proof.
  cbv zeta. unfold led_array_write.
  enough (H : fifo (for_loop 0 n
                      (fun idx m' =>
                         pio_sm_put_blocking (u32 (Z.shiftl (cell m' idx) 8)) m') m)
              = rev (map (fun w => u32 (Z.shiftl w 8)) (buffer (0 + n) m)) ++ fifo m
              /\ slept (for_loop 0 n
                      (fun idx m' =>
                         pio_sm_put_blocking (u32 (Z.shiftl (cell m' idx) 8)) m') m)
                 = slept m
              /\ cell (for_loop 0 n
                      (fun idx m' =>
                         pio_sm_put_blocking (u32 (Z.shiftl (cell m' idx) 8)) m') m)
                 = cell m)
    by (destruct H as (H1 & H2 & _); auto).
  apply (for_loop_inv
           (fun i m' =>
              fifo m' = rev (map (fun w => u32 (Z.shiftl w 8)) (buffer i m)) ++ fifo m
              /\ slept m' = slept m /\ cell m' = cell m)
           _ n 0 m).
  - intros i m' _ (Hf & Hs & Hc).
    cbn [pio_sm_put_blocking fifo slept cell].
    rewrite Hf, Hc. unfold buffer.
    rewrite seq_S, !map_app, rev_app_distr. auto.
  - auto.
Qed.

(** X1: [led_array_set] on a buffer of any length [n] (none included)
    leaves [colour] in each of the [n] cells and nothing else changed: the
    memory after the buffer, the globals and the PIO are as before, and the
    stores are the offsets [0] to [n - 1], each once, in rising order. *)
Theorem led_array_set_fills (n : nat) (colour : Z) (m : machine) :
  let m' := led_array_set n colour m in
  buffer n m' = repeat colour n /\
  (forall j, (n <= j)%nat -> cell m' j = cell m j) /\
  written m' = rev (seq 0 n) ++ written m /\
  fifo m' = fifo m /\
  same_globals m m'.
Proof.
  cbv zeta. unfold led_array_set.
  destruct (for_loop_poke_log (fun _ => colour) n m) as (Hw & Hf & _).
  split; [|split; [|split; [|split]]].
  - apply buffer_uniform. intros i Hi.
    rewrite for_loop_poke_cell with (val := fun _ => colour).
    now rewrite (proj2 (Nat.ltb_lt i n)).
  - intros j Hj.
    rewrite for_loop_poke_cell with (val := fun _ => colour).
    now rewrite (proj2 (Nat.ltb_ge j n)).
  - exact Hw.
  - exact Hf.
  - apply for_loop_poke_globals with (val := fun _ => colour).
Qed.

(** X2: [led_array_write] pushes one word per cell of the buffer to the
    PIO, cell 0 first, each being the cell shifted left by 8 and cut to 32
    bits; it changes neither the memory nor the globals and stores
    nothing. *)
Theorem led_array_write_transmits (n : nat) (m : machine) :
  let m' := led_array_write n m in
  fifo m' = rev (map (fun w => u32 (Z.shiftl w 8)) (buffer n m)) ++ fifo m /\
  cell m' = cell m /\
  written m' = written m /\
  same_globals m m'.
Proof.
  cbv zeta. destruct (led_array_write_log n m) as (Hf & _).
  repeat split.
  - exact Hf.
  - apply led_array_write_cell.
  - apply led_array_write_written.
  - apply led_array_write_globals.
  - apply led_array_write_globals.
  - apply led_array_write_globals.
Qed.

Lemma wire_word (r g b : Z) :
  0 <= r < 256 -> 0 <= g < 256 -> 0 <= b < 256 ->
  u32 (Z.shiftl (rgb_u32 r g b) 8) = r * 2 ^ 24 + g * 2 ^ 16 + b * 2 ^ 8.
Proof.
  intros Hr Hg Hb. rewrite rgb_u32_value by assumption.
  rewrite Z.shiftl_mul_pow2 by lia.
  rewrite u32_small by lia. lia.
Qed.

(** X3: a buffer filled with the pixel of 8-bit intensities [(r, g, b)] and
    then written goes out as [n] equal 32-bit words with red in bits 24 to
    31, green in bits 16 to 23, blue in bits 8 to 15 and the low byte
    zero. *)
Theorem filled_buffer_on_the_wire (n : nat) (r g b : Z) (m : machine) :
  0 <= r < 256 -> 0 <= g < 256 -> 0 <= b < 256 ->
  fifo (led_array_write n (led_array_set n (rgb_u32 r g b) m))
  = repeat (r * 2 ^ 24 + g * 2 ^ 16 + b * 2 ^ 8) n ++ fifo m.
Proof.
  intros Hr Hg Hb.
  destruct (led_array_write_log n (led_array_set n (rgb_u32 r g b) m)) as (-> & _).
  unfold led_array_set at 2.
  destruct (for_loop_poke_log (fun _ => rgb_u32 r g b) n m) as (_ & -> & _).
  f_equal.
  replace (buffer n (led_array_set n (rgb_u32 r g b) m))
    with (repeat (rgb_u32 r g b) n).
  - rewrite map_repeat, rev_repeat. f_equal. now apply wire_word.
  - symmetry. apply buffer_uniform. intros i Hi. unfold led_array_set.
    rewrite for_loop_poke_cell with (val := fun _ => rgb_u32 r g b).
    now rewrite (proj2 (Nat.ltb_lt i n)).
Qed.

Lemma filled_buffer_on_the_wire_witness :
  fifo (led_array_write 3 (led_array_set 3 (rgb_u32 1 2 3) boot))
  = [0x01020300; 0x01020300; 0x01020300].
Proof.
  apply (filled_buffer_on_the_wire 3 1 2 3 boot); lia.
Defined.

(** X4: [clear_leds] leaves every cell of the buffer at zero and sends [n]
    zero words to the PIO; it stores to the offsets [0] to [n - 1] only and
    touches neither the memory after the buffer nor the globals. *)
Theorem clear_leds_blanks (n : nat) (m : machine) :
  let m' := clear_leds n m in
  buffer n m' = repeat 0 n /\
  fifo m' = repeat 0 n ++ fifo m /\
  (forall j, (n <= j)%nat -> cell m' j = cell m j) /\
  written m' = rev (seq 0 n) ++ written m /\
  same_globals m m'.
Proof.
  cbv zeta. unfold clear_leds.
  assert (Hb : buffer n (led_array_set n 0 m) = repeat 0 n).
  { apply buffer_uniform. intros i Hi. unfold led_array_set.
    rewrite for_loop_poke_cell with (val := fun _ => 0).
    now rewrite (proj2 (Nat.ltb_lt i n)). }
  destruct (led_array_write_log n (led_array_set n 0 m)) as (Hf & _).
  destruct (for_loop_poke_log (fun _ => 0) n m) as (Hw & Hf' & _).
  split; [|split; [|split; [|split]]].
  - unfold buffer in *. now rewrite led_array_write_cell.
  - rewrite Hf, Hb, map_repeat, rev_repeat. unfold led_array_set.
    now rewrite Hf'.
  - intros j Hj. rewrite led_array_write_cell. unfold led_array_set.
    rewrite for_loop_poke_cell with (val := fun _ => 0).
    now rewrite (proj2 (Nat.ltb_ge j n)).
  - rewrite led_array_write_written. exact Hw.
  - apply clear_leds_globals.
Qed.

(** ** The handler *)

Lemma gpio_callback_memory (gpio e : Z) (m : machine) :
  same_memory m (gpio_callback gpio e m).
Proof.
  unfold gpio_callback, same_memory.
  destruct (nonzero (Z.land e 4)); [|destruct (nonzero (Z.land e 8))];
    destruct (led_pressed m); cbn; auto.
Qed.

Lemma gpio_callback_range (gpio e : Z) (m : machine) :
  pattern_in_range m -> pattern_in_range (gpio_callback gpio e m).
Proof.
  unfold pattern_in_range, gpio_callback, led_pattern_max, MODE_MAX.
  intros H.
  destruct (nonzero (Z.land e 4)); [|destruct (nonzero (Z.land e 8))];
    destruct (led_pressed m); cbn; auto.
  rewrite s32_small by (unfold INT_MAX; lia).
  destruct (Z.eqb_spec (led_pattern m + 1) 6); lia.
Qed.

Lemma deliver_range (gpio : Z) (events : list Z) :
  forall m, pattern_in_range m -> pattern_in_range (deliver gpio events m).
Proof.
  unfold deliver. induction events as [|e events IH]; intros m H; cbn.
  - exact H.
  - apply IH. now apply gpio_callback_range.
Qed.

Lemma deliver_memory (gpio : Z) (events : list Z) :
  forall m, same_memory m (deliver gpio events m).
Proof.
  unfold deliver. induction events as [|e events IH]; intros m; cbn.
  - repeat split.
  - destruct (gpio_callback_memory gpio e m) as (H1 & H2 & H3 & H4).
    destruct (IH (gpio_callback gpio e m)) as (K1 & K2 & K3 & K4).
    unfold same_memory. repeat split; congruence.
Qed.

(** X5: an edge that only repeats what the handler already holds changes
    nothing at all: a press while [led_pressed] is set, and anything that is
    not a press (a release, or no edge bit) while it is clear.  In
    particular a release with no press before it is ignored. *)
Theorem gpio_callback_ignores_repeats (gpio e : Z) (m : machine) :
  is_press e = led_pressed m -> gpio_callback gpio e m = m.
Proof.
  unfold is_press, gpio_callback. intros H. rewrite H.
  destruct (led_pressed m); cbn; [reflexivity|].
  destruct (nonzero (Z.land e 8)); reflexivity.
Qed.

Lemma gpio_callback_ignores_repeats_witness :
  gpio_callback MODE_PIN 8 boot = boot.
Proof.
  apply (gpio_callback_ignores_repeats MODE_PIN 8 boot). reflexivity.
Defined.

(** X6: whatever edges arrive, in whatever order, [led_pattern] stays
    inside [0, MODE_MAX) once it is there, and the handler leaves the LED
    memory, the PIO and the clock alone. *)
Theorem deliver_keeps_pattern_in_range (gpio : Z) (events : list Z) (m : machine) :
  pattern_in_range m ->
  pattern_in_range (deliver gpio events m) /\
  same_memory m (deliver gpio events m).
Proof.
  intros H. split; [now apply deliver_range | apply deliver_memory].
Qed.

Lemma deliver_keeps_pattern_in_range_witness :
  pattern_in_range (deliver MODE_PIN [4; 8; 8; 4; 12; 8; 0; 4; 8] boot) /\
  same_memory boot (deliver MODE_PIN [4; 8; 8; 4; 12; 8; 0; 4; 8] boot).
Proof.
  apply (deliver_keeps_pattern_in_range MODE_PIN [4; 8; 8; 4; 12; 8; 0; 4; 8] boot).
  unfold pattern_in_range, MODE_MAX. simpl. lia.
Defined.

Lemma deliver_pairs (gpio press release : Z) (k : nat) :
  forall m,
    deliver gpio (concat (repeat [press; release] k)) m
    = Nat.iter k (press_release gpio press release) m.
Proof.
  induction k as [|k IH]; intros m.
  - reflexivity.
  - rewrite Nat.iter_succ_r, <- IH. reflexivity.
Qed.

(** X7: when several press-release pairs complete between two polls, every
    one of them advances [led_pattern] (by [k] modulo [MODE_MAX] for [k]
    pairs), but the flag only records that there was one: the next poll
    returns true, the one after it false, and neither changes
    [led_pattern]. *)
Theorem rapid_pairs_coalesce (gpio press release : Z) (k : nat) (m : machine) :
  is_press press = true ->
  is_release release = true ->
  pattern_in_range m ->
  let m' := deliver gpio (concat (repeat [press; release] (S k))) m in
  led_pattern m' = (led_pattern m + Z.of_nat (S k)) mod MODE_MAX /\
  fst (get_interrupted m') = true /\
  fst (get_interrupted (poll m')) = false /\
  led_pattern (poll (poll m')) = led_pattern m'.
Proof.
  intros Hp Hr Hm. cbv zeta. rewrite deliver_pairs.
  split; [now apply press_release_iter|].
  assert (Hflag : button_interrupt
                    (Nat.iter (S k) (press_release gpio press release) m) = true).
  { rewrite Nat.iter_succ.
    apply press_release_spec; auto.
    rewrite press_release_iter by auto.
    apply Z.mod_pos_bound. unfold MODE_MAX. lia. }
  split; [|split].
  - unfold get_interrupted. now rewrite Hflag.
  - unfold poll.
    destruct (get_interrupted_clears
                (Nat.iter (S k) (press_release gpio press release) m))
      as (Hc & _).
    unfold get_interrupted at 1. now rewrite Hc.
  - apply (poll_keeps_pattern 2).
Qed.

Lemma rapid_pairs_coalesce_witness :
  let m' := deliver MODE_PIN (concat (repeat [4; 8] 8)) boot in
  led_pattern m' = 2 /\
  fst (get_interrupted m') = true /\
  fst (get_interrupted (poll m')) = false /\
  led_pattern (poll (poll m')) = led_pattern m'.
Proof.
  apply (rapid_pairs_coalesce MODE_PIN 4 8 7 boot).
  - reflexivity.
  - reflexivity.
  - unfold pattern_in_range, MODE_MAX. simpl. lia.
Defined.

(** ** The polling contract of the routines *)

Lemma get_interrupted_memory (m : machine) :
  same_memory m (snd (get_interrupted m)).
Proof.
  unfold get_interrupted, same_memory.
  destruct (button_interrupt m); cbn; auto.
Qed.

(** After [k] iterations with the button left alone, the events of the next
    interval are delivered to the machine of frame [k] and polled. *)
Lemma frame_loop_after_quiet {L : Type} (body : L -> machine -> L * machine) :
  (forall l m, same_globals m (snd (body l m))) ->
  forall k events rest l m,
    button_interrupt m = false ->
    frame_loop body (repeat [] k ++ events :: rest) l m
    = frame_loop body (events :: rest)
                 (fst (frames body k l m)) (snd (frames body k l m)).
Proof.
  intros H k events rest. induction k as [|k IH]; intros l m Hm.
  - reflexivity.
  - cbn [repeat app frames].
    change (frame_loop body ([] :: repeat [] k ++ events :: rest) l m)
      with (let (ret, m1) := get_interrupted m in
            if ret then (Some (repeat [] k ++ events :: rest), l, m1)
            else let (l', m2) := body l m1 in
                 frame_loop body (repeat [] k ++ events :: rest) l' m2).
    rewrite get_interrupted_idle by exact Hm.
    destruct (H l m) as (_ & Hb & _).
    destruct (body l m) as [l' m']. cbn [snd] in Hb.
    apply IH. congruence.
Qed.

Lemma frames_globals {L : Type} (body : L -> machine -> L * machine) :
  (forall l m, same_globals m (snd (body l m))) ->
  forall k l m, same_globals m (snd (frames body k l m)).
Proof.
  intros H k l m.
  apply (frames_inv body (fun m' => same_globals m m')).
  - intros l' m' Hm'. eapply same_globals_trans; [exact Hm' | apply H].
  - apply same_globals_refl.
Qed.

(** A routine whose body leaves the globals alone returns at the poll that
    follows a completed pair. *)
Lemma frame_loop_press_release {L : Type} (body : L -> machine -> L * machine)
      (press release : Z) (k : nat) (rest : list (list Z)) (l : L) (m : machine) :
  (forall l m, same_globals m (snd (body l m))) ->
  is_press press = true ->
  is_release release = true ->
  button_interrupt m = false ->
  pattern_in_range m ->
  exists l' m',
    frame_loop body (repeat [] k ++ [press; release] :: rest) l m
    = (Some rest, l', m') /\
    button_interrupt m' = false /\
    led_pressed m' = false /\
    led_pattern m' = (led_pattern m + 1) mod MODE_MAX /\
    same_memory (snd (frames body k l m)) m'.
Proof.
  intros Hb Hp Hr Hm Hrange.
  rewrite frame_loop_after_quiet by assumption.
  destruct (frames_globals body Hb k l m) as (_ & _ & Hpat).
  set (mk := snd (frames body k l m)) in *.
  set (lk := fst (frames body k l m)).
  cbn [frame_loop].
  change (deliver MODE_PIN [press; release] mk)
    with (press_release MODE_PIN press release mk).
  destruct (press_release_spec MODE_PIN press release mk Hp Hr) as (Hq & Hi & Hn).
  { unfold pattern_in_range in Hrange. now rewrite Hpat. }
  pose proof (get_interrupted_clears (press_release MODE_PIN press release mk))
    as (Hc1 & Hc2 & Hc3).
  pose proof (get_interrupted_memory (press_release MODE_PIN press release mk))
    as (Hm1 & Hm2 & Hm3 & Hm4).
  pose proof (deliver_memory MODE_PIN [press; release] mk) as (Hd1 & Hd2 & Hd3 & Hd4).
  change (deliver MODE_PIN [press; release] mk)
    with (press_release MODE_PIN press release mk) in *.
  assert (Hret : fst (get_interrupted (press_release MODE_PIN press release mk)) = true).
  { unfold get_interrupted. now rewrite Hi. }
  destruct (get_interrupted (press_release MODE_PIN press release mk)) as [ret m1].
  cbn [fst snd] in *. subst ret.
  exists lk, m1. repeat split; try congruence.
Qed.

(** A routine whose body leaves the globals alone does not return as long
    as no release edge is handled as such. *)
Lemma deliver_no_release (gpio : Z) (events : list Z) :
  Forall (fun e => is_release e = false) events ->
  forall m, button_interrupt (deliver gpio events m) = button_interrupt m.
Proof.
  unfold deliver. induction 1 as [|e events He _ IH]; intros m; cbn.
  - reflexivity.
  - rewrite IH. unfold is_release in He. unfold gpio_callback.
    destruct (nonzero (Z.land e 4)); cbn in He.
    + destruct (led_pressed m); reflexivity.
    + rewrite He. reflexivity.
Qed.

Lemma frame_loop_no_release {L : Type} (body : L -> machine -> L * machine) :
  (forall l m, same_globals m (snd (body l m))) ->
  forall sched l m,
    Forall (Forall (fun e => is_release e = false)) sched ->
    button_interrupt m = false ->
    fst (fst (frame_loop body sched l m)) = None.
Proof.
  intros Hb sched. induction sched as [|events sched IH]; intros l m Hs Hm.
  - reflexivity.
  - inversion Hs as [|? ? He Hs']; subst.
    cbn [frame_loop].
    rewrite get_interrupted_idle
      by (rewrite deliver_no_release by exact He; exact Hm).
    destruct (Hb l (deliver MODE_PIN events m)) as (_ & Hi & _).
    destruct (body l (deliver MODE_PIN events m)) as [l' m']. cbn [snd] in Hi.
    apply IH; [exact Hs'|].
    rewrite Hi. rewrite deliver_no_release by exact He. exact Hm.
Qed.


(** ** The routines as the scheduler calls them *)

Lemma dispatch_cases (p : Z) (c : invocation) :
  dispatch p = Some c ->
  c = CallWalk 100 \/ c = CallWalk 200 \/
  c = CallFade 255 0 127 3000 1 \/ c = CallFade 255 0 127 3000 2 \/
  c = CallChase 100 false \/ c = CallChase 100 true.
Proof.
  unfold dispatch.
  repeat match goal with
         | |- context [if ?b then _ else _] => destruct b
         end; intros H; inversion H; auto 10.
Qed.

(** Each call the scheduler makes is the frame loop of a body that leaves
    the globals alone, started on the machine or on the machine with the
    LEDs cleared. *)
Lemma invoke_dispatched (p : Z) (c : invocation) :
  dispatch p = Some c ->
  exists (L : Type) (body : L -> machine -> L * machine) (l0 : L)
         (pre : machine -> machine),
    (forall l m, same_globals m (snd (body l m))) /\
    (forall m, same_globals m (pre m)) /\
    forall sched m,
      invoke c sched m
      = Some (fst (fst (frame_loop body sched l0 (pre m))),
              snd (frame_loop body sched l0 (pre m))).
Proof.
  intros H. apply dispatch_cases in H.
  destruct H as [-> | [-> | [-> | [-> | [-> | ->]]]]].
  - exists Walk.locals, (Walk.body (u16 100) NUM_PIXELS), Walk.start, (fun m => m).
    split; [intros; apply walk_body_globals|].
    split; [intros; apply same_globals_refl|].
    intros sched m. unfold invoke, Walk.walk_three.
    now destruct (frame_loop _ sched Walk.start m) as [[r l] m'].
  - exists Walk.locals, (Walk.body (u16 200) NUM_PIXELS), Walk.start, (fun m => m).
    split; [intros; apply walk_body_globals|].
    split; [intros; apply same_globals_refl|].
    intros sched m. unfold invoke, Walk.walk_three.
    now destruct (frame_loop _ sched Walk.start m) as [[r l] m'].
  - exists Fade.locals, (Fade.body 12 250 NUM_PIXELS), (Fade.start 255 0 127 1),
      (fun m => m).
    split; [intros; apply fade_body_globals|].
    split; [intros; apply same_globals_refl|].
    intros sched m. unfold invoke, Fade.fade_three.
    change (Fade.step_count (u16 3000)) with (Some 250).
    change (Fade.wait_ms (u16 3000)) with 12. cbv iota beta.
    now destruct (frame_loop _ sched (Fade.start 255 0 127 1) m) as [[r l] m'].
  - exists Fade.locals, (Fade.body 12 250 NUM_PIXELS), (Fade.start 255 0 127 2),
      (fun m => m).
    split; [intros; apply fade_body_globals|].
    split; [intros; apply same_globals_refl|].
    intros sched m. unfold invoke, Fade.fade_three.
    change (Fade.step_count (u16 3000)) with (Some 250).
    change (Fade.wait_ms (u16 3000)) with 12. cbv iota beta.
    now destruct (frame_loop _ sched (Fade.start 255 0 127 2) m) as [[r l] m'].
  - exists Chase.locals, (Chase.body (u16 100) false NUM_PIXELS), Chase.start,
      (clear_leds NUM_PIXELS).
    split; [intros; apply chase_body_globals|].
    split; [intros; apply clear_leds_globals|].
    intros sched m. unfold invoke, Chase.chase_colour.
    now destruct (frame_loop _ sched Chase.start (clear_leds NUM_PIXELS m))
      as [[r l] m'].
  - exists Chase.locals, (Chase.body (u16 100) true NUM_PIXELS), Chase.start,
      (clear_leds NUM_PIXELS).
    split; [intros; apply chase_body_globals|].
    split; [intros; apply clear_leds_globals|].
    intros sched m. unfold invoke, Chase.chase_colour.
    now destruct (frame_loop _ sched Chase.start (clear_leds NUM_PIXELS m))
      as [[r l] m'].
Qed.

(** X8: whichever routine the [switch] of [main] calls, after any number
    [k] of iterations with the button left alone a press edge followed by a
    release edge makes it return at its next poll: the flag is consumed,
    [led_pressed] is clear and [led_pattern] has advanced by one modulo
    [MODE_MAX], so the scheduler goes on with the next case. *)
Theorem routine_returns_after_pair
        (p : Z) (c : invocation) (press release : Z) (k : nat)
        (rest : list (list Z)) (m : machine) :
  dispatch p = Some c ->
  is_press press = true ->
  is_release release = true ->
  button_interrupt m = false ->
  pattern_in_range m ->
  exists m',
    invoke c (repeat [] k ++ [press; release] :: rest) m = Some (Some rest, m') /\
    button_interrupt m' = false /\
    led_pressed m' = false /\
    led_pattern m' = (led_pattern m + 1) mod MODE_MAX.
Proof.
  intros Hd Hp Hr Hm Hrange.
  destruct (invoke_dispatched p c Hd) as (L & body & l0 & pre & Hb & Hpre & Hinv).
  destruct (Hpre m) as (_ & Hpi & Hpp).
  destruct (frame_loop_press_release body press release k rest l0 (pre m)
              Hb Hp Hr) as (l' & m' & Hloop & H1 & H2 & H3 & _).
  - congruence.
  - unfold pattern_in_range in *. now rewrite Hpp.
  - exists m'. rewrite Hinv, Hloop. cbn [fst snd].
    repeat split; congruence.
Qed.

Lemma routine_returns_after_pair_witness :
  exists m',
    invoke (CallChase 100 true) [[]; []; [4; 8]; [4]] boot = Some (Some [[4]], m') /\
    button_interrupt m' = false /\
    led_pressed m' = false /\
    led_pattern m' = 1.
Proof.
  apply (routine_returns_after_pair 5 (CallChase 100 true) 4 8 2 [[4]] boot).
  - reflexivity.
  - reflexivity.
  - reflexivity.
  - reflexivity.
  - unfold pattern_in_range, MODE_MAX. simpl. lia.
Defined.

(** X9: whichever routine the [switch] of [main] calls, it keeps running as
    long as no event is handled as a release: press edges alone, however
    many, and events without an edge bit never make it return. *)
Theorem routine_runs_until_release
        (p : Z) (c : invocation) (sched : list (list Z)) (m : machine) :
  dispatch p = Some c ->
  Forall (Forall (fun e => is_release e = false)) sched ->
  button_interrupt m = false ->
  exists m', invoke c sched m = Some (None, m').
Proof.
  intros Hd Hs Hm.
  destruct (invoke_dispatched p c Hd) as (L & body & l0 & pre & Hb & Hpre & Hinv).
  destruct (Hpre m) as (_ & Hpi & _).
  exists (snd (frame_loop body sched l0 (pre m))).
  rewrite Hinv. f_equal. f_equal.
  apply frame_loop_no_release; auto. congruence.
Qed.

Lemma routine_runs_until_release_witness :
  exists m', invoke (CallWalk 100) [[4]; [4; 4]; [0]; [12]] boot = Some (None, m').
Proof.
  apply (routine_runs_until_release 0 (CallWalk 100) [[4]; [4; 4]; [0]; [12]] boot).
  - reflexivity.
  - repeat constructor.
  - reflexivity.
Defined.






(** ** walk_three *)

Lemma walk_frames_locals (period : Z) (n k : nat) (l : Walk.locals) (m : machine) :
  fst (frames (Walk.body period n) k l m) = Nat.iter k Walk.next l.
Proof. apply frames_locals. reflexivity. Qed.

Lemma walk_step_at (k : nat) :
  Walk.step (Nat.iter k Walk.next Walk.start) = Z.of_nat (k mod 3).
Proof.
  induction k as [|k IH].
  - reflexivity.
  - rewrite Nat.iter_succ. unfold Walk.next at 1. rewrite IH.
    assert (H : (k mod 3 = 0 /\ S k mod 3 = 1 \/
                 k mod 3 = 1 /\ S k mod 3 = 2 \/
                 k mod 3 = 2 /\ S k mod 3 = 0)%nat) by lia.
    destruct H as [[-> ->]|[[-> ->]|[-> ->]]]; reflexivity.
Qed.

(** The colours drawn at frame [k]: the three reference colours, rotated
    by [k]. *)
Lemma walk_clrs_at (k i : nat) :
  nth (i mod 3) (Walk.clrs (Walk.next (Nat.iter k Walk.next Walk.start))) 0
  = nth ((i + k) mod 3) [Walk.red; Walk.grn; Walk.blu] 0.
Proof.
  unfold Walk.next at 1. rewrite walk_step_at.
  assert (Hk : (k mod 3 = 0 \/ k mod 3 = 1 \/ k mod 3 = 2)%nat) by lia.
  assert (Hi : (i mod 3 = 0 \/ i mod 3 = 1 \/ i mod 3 = 2)%nat) by lia.
  destruct Hk as [Hk|[Hk|Hk]], Hi as [Hi|[Hi|Hi]]; rewrite Hk, Hi;
    cbn [Z.of_nat Z.eqb Pos.of_succ_nat Pos.succ Pos.eqb Walk.clrs nth].
  - replace ((i + k) mod 3)%nat with 0%nat by lia. reflexivity.
  - replace ((i + k) mod 3)%nat with 1%nat by lia. reflexivity.
  - replace ((i + k) mod 3)%nat with 2%nat by lia. reflexivity.
  - replace ((i + k) mod 3)%nat with 1%nat by lia. reflexivity.
  - replace ((i + k) mod 3)%nat with 2%nat by lia. reflexivity.
  - replace ((i + k) mod 3)%nat with 0%nat by lia. reflexivity.
  - replace ((i + k) mod 3)%nat with 2%nat by lia. reflexivity.
  - replace ((i + k) mod 3)%nat with 0%nat by lia. reflexivity.
  - replace ((i + k) mod 3)%nat with 1%nat by lia. reflexivity.
Qed.

Lemma walk_buffer_at (period : Z) (n k : nat) (m : machine) :
  let top := frames (Walk.body period n) k Walk.start m in
  buffer n (snd (Walk.body period n (fst top) (snd top)))
  = map (fun i => nth ((i + k) mod 3) [Walk.red; Walk.grn; Walk.blu] 0) (seq 0 n).
Proof.
  cbv zeta. rewrite walk_frames_locals.
  unfold buffer. apply map_ext_in. intros i Hi. apply in_seq in Hi.
  unfold Walk.body. cbn [snd sleep_ms cell].
  rewrite led_array_write_cell.
  rewrite for_loop_poke_cell
    with (val := fun i => nth (i mod 3)
                              (Walk.clrs (Walk.next (Nat.iter k Walk.next Walk.start))) 0).
  rewrite (proj2 (Nat.ltb_lt i n)) by lia.
  apply walk_clrs_at.
Qed.

(** X11: at frame [k] of [walk_three], cell [i] of a buffer of any length
    holds the reference colour number [(i + k) mod 3] of red, green, blue
    (each at intensity 31, as an RGB word): the three colours alternate
    along the string and move down by one cell per frame, so the picture
    comes back every three frames whatever the length of the buffer. *)
Theorem walk_three_marches (period : Z) (n k : nat) (m : machine) :
  let shown j :=
    let top := frames (Walk.body period n) j Walk.start m in
    buffer n (snd (Walk.body period n (fst top) (snd top))) in
  shown k
  = map (fun i => nth ((i + k) mod 3) [0x1f0000; 0x001f00; 0x00001f] 0)
        (seq 0 n) /\
  shown (k + 3)%nat = shown k.
Proof.
  cbv beta zeta. rewrite !walk_buffer_at. split.
  - reflexivity.
  - apply map_ext. intros i.
    replace (i + (k + 3))%nat with (i + k + 1 * 3)%nat by lia.
    now rewrite Nat.Div0.mod_add.
Qed.

(** ** Stores *)

(** X12: [step_three], [walk_three] and [chase_colour] store to cells of
    the buffer only: if every store so far went to an offset below the
    length [n], so did every store after any number of frames (for the
    chase, the clearing of the LEDs at its start included). *)
Theorem three_routines_stay_in_the_buffer
        (period : Z) (bg_on : bool) (n k : nat) (m : machine) :
  in_bounds n m ->
  in_bounds n (snd (frames (Step.body (Step.wait_ms period) n) k Step.start m)) /\
  in_bounds n (snd (frames (Walk.body period n) k Walk.start m)) /\
  in_bounds n (snd (frames (Chase.body period bg_on n) k Chase.start
                           (clear_leds n m))).
Proof.
  intros H. split; [|split].
  - now apply step_frames_in_bounds.
  - now apply walk_frames_in_bounds.
  - now apply chase_frames_in_bounds.
Qed.

Lemma three_routines_stay_in_the_buffer_witness :
  in_bounds 4 (snd (frames (Step.body (Step.wait_ms 100) 4) 3 Step.start boot)) /\
  in_bounds 4 (snd (frames (Walk.body 100 4) 3 Walk.start boot)) /\
  in_bounds 4 (snd (frames (Chase.body 100 true 4) 3 Chase.start
                           (clear_leds 4 boot))).
Proof.
  apply (three_routines_stay_in_the_buffer 100 true 4 3 boot).
  constructor.
Defined.

(** X13: a frame of [fade_three] on a buffer of length [n] stores to the
    offsets [0] to [3 * n - 1], each once, in rising order; it leaves the
    colour of [j mod 3] in every one of them, so the [2 * n] words that
    follow the buffer are overwritten too, and it leaves the memory from
    offset [3 * n] on alone.  With [n = 0] it stores nothing. *)
Theorem fade_three_frame_stores
        (wait count : Z) (n : nat) (l : Fade.locals) (m : machine) :
  let m' := snd (Fade.body wait count n l m) in
  written m' = rev (seq 0 (3 * n)) ++ written m /\
  (forall j, (j < 3 * n)%nat ->
             cell m' j = fade_colour (Fade.red l) (Fade.grn l) (Fade.blu l) j) /\
  (forall j, (3 * n <= j)%nat -> cell m' j = cell m j).
Proof.
  cbv zeta. split; [|split].
  - destruct (fade_body_machine wait count n l m) as (_ & -> & _).
    apply fade_draw_written.
  - intros j Hj. rewrite fade_body_cell.
    now rewrite (proj2 (Nat.ltb_lt j (3 * n))).
  - intros j Hj. rewrite fade_body_cell.
    now rewrite (proj2 (Nat.ltb_ge j (3 * n))).
Qed.

(** ** fade_three: timing *)

Lemma fade_wait_ms_value (period : Z) :
  0 <= period < 65536 ->
  Fade.wait_ms period = (period * 10 / 256 + 5) / 10.
Proof.
  intros H. unfold Fade.wait_ms.
  rewrite (s32_small (period * 10)) by (unfold INT_MAX; lia).
  rewrite (Z.quot_div_nonneg (period * 10) 256) by lia.
  assert (H1 : 0 <= period * 10 / 256 < 2560) by lia.
  rewrite s32_small by (unfold INT_MAX; lia).
  rewrite Z.quot_div_nonneg by lia.
  unfold u16. apply Z.mod_small. lia.
Qed.

(** X14: [fade_three] divides by zero exactly when its period is below 128
    ms: [wait_ms] is then zero and [period / wait_ms] has no value; from
    128 ms on the routine starts. *)
Theorem fade_three_traps_below_128
        (n : nat) (red grn blu period adj : Z) (sched : list (list Z))
        (m : machine) :
  0 <= period < 65536 ->
  Fade.fade_three n red grn blu period adj sched m = None <-> period < 128.
Proof.
  intros H. unfold Fade.fade_three, Fade.step_count.
  replace (u16 period) with period by (unfold u16; rewrite Z.mod_small; lia).
  rewrite fade_wait_ms_value by exact H.
  destruct (Z.eqb_spec ((period * 10 / 256 + 5) / 10) 0) as [E|E].
  - split; [intros _; lia | reflexivity].
  - split; [discriminate | intros Hp; lia].
Qed.

Lemma fade_three_traps_below_128_witness :
  Fade.fade_three 4 255 0 127 127 1 [[]] boot = None <-> 127 < 128.
Proof.
  apply (fade_three_traps_below_128 4 255 0 127 127 1 [[]] boot). lia.
Defined.

Lemma frames_succ_r {L : Type} (body : L -> machine -> L * machine) (k : nat) :
  forall l m,
    frames body (S k) l m
    = body (fst (frames body k l m)) (snd (frames body k l m)).
Proof.
  induction k as [|k IH]; intros l m.
  - cbn [frames fst snd]. now destruct (body l m).
  - change (frames body (S (S k)) l m)
      with (let (l', m') := body l m in frames body (S k) l' m').
    change (frames body (S k) l m)
      with (let (l', m') := body l m in frames body k l' m').
    destruct (body l m) as [l' m']. apply IH.
Qed.

Lemma fade_draw_slept (red grn blu : Z) (todo : nat) :
  forall ap m, slept (Fade.draw todo ap red grn blu m) = slept m.
Proof.
  induction todo as [|todo IH]; intros ap m; cbn [Fade.draw].
  - reflexivity.
  - now rewrite IH.
Qed.

Lemma fade_body_slept (wait count : Z) (n : nat) (l : Fade.locals) (m : machine) :
  slept (snd (Fade.body wait count n l m))
  = slept m + (if count <=? u16 (Fade.step_no l + 1) then 0 else wait).
Proof.
  unfold Fade.body. cbn [snd].
  destruct (led_array_write_log n
              (Fade.draw n 0 (Fade.red l) (Fade.grn l) (Fade.blu l) m))
    as (_ & Hs).
  destruct (count <=? u16 (Fade.step_no l + 1)); cbn [sleep_ms slept];
    rewrite Hs, fade_draw_slept; lia.
Qed.

Lemma div_mod_succ (z count : Z) :
  0 <= z -> 0 < count ->
  (z mod count + 1 = count ->
   (z + 1) / count = z / count + 1 /\ (z + 1) mod count = 0) /\
  (z mod count + 1 < count ->
   (z + 1) / count = z / count /\ (z + 1) mod count = z mod count + 1).
Proof.
  intros Hz Hc.
  assert (Hne : count <> 0) by (intros ->; inversion Hc).
  pose proof (Z.div_mod z count Hne) as E.
  pose proof (Z.mod_pos_bound z count Hc) as B.
  revert E B. generalize (z / count) as q. generalize (z mod count) as r.
  intros r q E B. split; intros H; split; symmetry.
  - apply Z.div_unique with (r := 0); lia.
  - apply Z.mod_unique with (q := q + 1); lia.
  - apply Z.div_unique with (r := r + 1); lia.
  - apply Z.mod_unique with (q := q); lia.
Qed.

(** X15: in [fade_three] with a step count [count] between 1 and 65535,
    [step_no] at the top of frame [k] is [k mod count], and the routine has
    slept [wait_ms] after every frame but the last of each run of [count]
    frames: [wait * (k - k / count)] ms in all. *)
Theorem fade_three_skips_one_wait_per_run
        (wait count red grn blu adj : Z) (n k : nat) (m : machine) :
  0 < count < 65536 ->
  let top := frames (Fade.body wait count n) k (Fade.start red grn blu adj) m in
  Fade.step_no (fst top) = Z.of_nat k mod count /\
  slept (snd top) = slept m + wait * (Z.of_nat k - Z.of_nat k / count).
Proof.
  intros Hc. cbv zeta. induction k as [|k [IHs IHt]].
  - cbn [frames fst snd Fade.start Fade.step_no Z.of_nat].
    rewrite Z.mod_0_l, Z.div_0_l by (intros ->; destruct Hc as [Hc _]; inversion Hc).
    split; [reflexivity | ring].
  - rewrite frames_succ_r.
    set (lk := fst (frames (Fade.body wait count n) k (Fade.start red grn blu adj) m)) in *.
    set (mk := snd (frames (Fade.body wait count n) k (Fade.start red grn blu adj) m)) in *.
    rewrite fade_body_slept, IHt.
    change (fst (Fade.body wait count n lk mk)) with (Fade.next count lk).
    unfold Fade.next. cbn [Fade.step_no]. rewrite IHs.
    rewrite Nat2Z.inj_succ. unfold Z.succ.
    destruct (div_mod_succ (Z.of_nat k) count (Nat2Z.is_nonneg k) (proj1 Hc))
      as [Hfull Hpart].
    pose proof (Z.mod_pos_bound (Z.of_nat k) count (proj1 Hc)) as [B1 B2].
    assert (Hu : u16 (Z.of_nat k mod count + 1) = Z.of_nat k mod count + 1).
    { unfold u16. apply Z.mod_small. clear - B1 B2 Hc. lia. }
    rewrite Hu.
    destruct (Z.leb_spec count (Z.of_nat k mod count + 1)) as [Hle|Hlt].
    + destruct Hfull as [-> ->]; [clear - B2 Hle; lia|].
      split; [reflexivity | ring].
    + destruct (Hpart Hlt) as [-> ->].
      split; [reflexivity | ring].
Qed.

Lemma fade_three_skips_one_wait_per_run_witness :
  let top := frames (Fade.body 12 250 2) 500 (Fade.start 255 0 127 1) boot in
  Fade.step_no (fst top) = 0 /\
  slept (snd top) = 12 * 498.
Proof.
  apply (fade_three_skips_one_wait_per_run 12 250 255 0 127 1 2 500 boot).
  split; reflexivity.
Defined.

(** ** fade_three with the adjustment rate 1 *)

Lemma fade_iter_channels (count : Z) (k : nat) (l : Fade.locals) :
  fade_red_channel (Nat.iter k (Fade.next count) l)
  = Nat.iter k fade_channel (fade_red_channel l) /\
  fade_grn_channel (Nat.iter k (Fade.next count) l)
  = Nat.iter k fade_channel (fade_grn_channel l) /\
  fade_blu_channel (Nat.iter k (Fade.next count) l)
  = Nat.iter k fade_channel (fade_blu_channel l).
Proof.
  induction k as [|k (IHr & IHg & IHb)].
  - repeat split.
  - rewrite !Nat.iter_succ, <- IHr, <- IHg, <- IHb. repeat split.
Qed.

Lemma fade_start_channels (red grn blu adj : Z) :
  fade_red_channel (Fade.start red grn blu adj)
  = (u8 red, Fade.direction (u8 red) adj) /\
  fade_grn_channel (Fade.start red grn blu adj)
  = (u8 grn, Fade.direction (u8 grn) adj) /\
  fade_blu_channel (Fade.start red grn blu adj)
  = (u8 blu, Fade.direction (u8 blu) adj).
Proof. repeat split. Qed.

Lemma pair_eqb_eq (a b : Z * Z) : pair_eqb a b = true -> a = b.
Proof.
  destruct a as [a1 a2], b as [b1 b2]. unfold pair_eqb. cbn [fst snd].
  intros H. apply andb_true_iff in H as [H1 H2].
  apply Z.eqb_eq in H1, H2. now subst.
Qed.

(** Every 8-bit starting value is back, with its direction, after 510
    frames: checked value by value. *)
Lemma fade_channel_period (v : Z) :
  0 <= v <= 255 ->
  Nat.iter 510 fade_channel (v, Fade.direction v 1) = (v, Fade.direction v 1).
Proof.
  intros Hv.
  assert (Hall : forallb
                   (fun n => let v := Z.of_nat n in
                             pair_eqb (Nat.iter 510 fade_channel (v, Fade.direction v 1))
                                      (v, Fade.direction v 1))
                   (seq 0 256) = true) by (vm_compute; reflexivity).
  rewrite forallb_forall in Hall.
  specialize (Hall (Z.to_nat v)).
  cbv zeta in Hall. rewrite Z2Nat.id in Hall by lia.
  apply pair_eqb_eq, Hall, in_seq. lia.
Qed.

(** X16: with the adjustment rate 1 (pattern 1 of [main]), whatever the
    three starting values, the channels of [fade_three] repeat with period
    510: at frame [k + 510] each value and each direction is what it was at
    frame [k]. *)
Theorem fade_three_rate_one_period
        (wait count red grn blu : Z) (n k : nat) (m : machine) :
  let at_frame j :=
    fst (frames (Fade.body wait count n) j (Fade.start red grn blu 1) m) in
  fade_red_channel (at_frame (k + 510)%nat) = fade_red_channel (at_frame k) /\
  fade_grn_channel (at_frame (k + 510)%nat) = fade_grn_channel (at_frame k) /\
  fade_blu_channel (at_frame (k + 510)%nat) = fade_blu_channel (at_frame k).
Proof.
  cbv beta zeta. rewrite !fade_frames_locals.
  destruct (fade_iter_channels count (k + 510) (Fade.start red grn blu 1))
    as (-> & -> & ->).
  destruct (fade_iter_channels count k (Fade.start red grn blu 1))
    as (-> & -> & ->).
  destruct (fade_start_channels red grn blu 1) as (-> & -> & ->).
  rewrite !Nat.iter_add.
  pose proof (u8_range red). pose proof (u8_range grn). pose proof (u8_range blu).
  rewrite !fade_channel_period by lia.
  repeat split.
Qed.

(** X17: with the adjustment rate 1, whatever the three starting values, at
    every frame each channel of [fade_three] moves by exactly one in its
    direction and stays between 0 and 255: it never wraps and never changes
    the size of its step. *)
Theorem fade_three_rate_one_unit_steps
        (wait count red grn blu : Z) (n k : nat) (m : machine) :
  let at_frame j :=
    fst (frames (Fade.body wait count n) j (Fade.start red grn blu 1) m) in
  unit_step (fade_red_channel (at_frame k)) (Fade.red (at_frame (S k))) /\
  unit_step (fade_grn_channel (at_frame k)) (Fade.grn (at_frame (S k))) /\
  unit_step (fade_blu_channel (at_frame k)) (Fade.blu (at_frame (S k))).
Proof.
  cbv beta zeta. rewrite !fade_frames_locals.
  assert (Hstep : forall v,
             unit_step (Nat.iter k fade_channel (u8 v, Fade.direction (u8 v) 1))
                       (fst (Nat.iter (S k) fade_channel
                                      (u8 v, Fade.direction (u8 v) 1)))).
  { intros v. pose proof (u8_range v) as Hv.
    assert (Hr : reflecting (Nat.iter k fade_channel (u8 v, Fade.direction (u8 v) 1)))
      by (apply fade_rate_one_reflects; lia).
    rewrite Nat.iter_succ.
    destruct (fade_channel_reflecting _ Hr) as (E & R').
    destruct Hr as (H1 & H2 & _). destruct R' as (H1' & _).
    unfold unit_step. repeat split; try tauto; lia. }
  destruct (fade_iter_channels count k (Fade.start red grn blu 1))
    as (-> & -> & ->).
  change (Fade.red (Nat.iter (S k) (Fade.next count) (Fade.start red grn blu 1)))
    with (fst (fade_red_channel
                 (Nat.iter (S k) (Fade.next count) (Fade.start red grn blu 1)))).
  change (Fade.grn (Nat.iter (S k) (Fade.next count) (Fade.start red grn blu 1)))
    with (fst (fade_grn_channel
                 (Nat.iter (S k) (Fade.next count) (Fade.start red grn blu 1)))).
  change (Fade.blu (Nat.iter (S k) (Fade.next count) (Fade.start red grn blu 1)))
    with (fst (fade_blu_channel
                 (Nat.iter (S k) (Fade.next count) (Fade.start red grn blu 1)))).
  destruct (fade_iter_channels count (S k) (Fade.start red grn blu 1))
    as (-> & -> & ->).
  destruct (fade_start_channels red grn blu 1) as (-> & -> & ->).
  repeat split; apply Hstep.
Qed.

(** ** chase_colour: the whole cycle *)

(** X18: in a buffer of [n >= 1] cells (the length fits an [int]) the
    chase repeats every [6 * n] frames, three round trips, one per colour:
    the locals at the top of frame [k + 6 * n] and the buffer drawn in it are
    those of frame [k]. *)
Theorem chase_colour_repeats
        (period : Z) (bg_on : bool) (n k : nat) (m : machine) :
  (1 <= n)%nat ->
  Z.of_nat n <= INT_MAX ->
  let top j := frames (Chase.body period bg_on n) j Chase.start (clear_leds n m) in
  let shown j :=
    buffer n (snd (Chase.body period bg_on n (fst (top j)) (snd (top j)))) in
  fst (top (k + 6 * n)%nat) = fst (top k) /\
  shown (k + 6 * n)%nat = shown k.
Proof.
  intros Hn Hint. cbv beta zeta.
  rewrite !chase_frames_locals, !(chase_locals_at n Hn Hint).
  assert (Hm : ((k + 6 * n) mod (2 * n) = k mod (2 * n))%nat).
  { replace (k + 6 * n)%nat with (k + 3 * (2 * n))%nat by lia.
    apply Nat.Div0.mod_add. }
  assert (Hd : ((k + 6 * n) / (2 * n) = k / (2 * n) + 3)%nat).
  { replace (k + 6 * n)%nat with (k + 3 * (2 * n))%nat by lia.
    apply Nat.div_add. lia. }
  assert (Hc : Nat.iter ((k + 6 * n) / (2 * n)) Chase.rotate Chase.chr_r
               = Nat.iter (k / (2 * n)) Chase.rotate Chase.chr_r).
  { rewrite Hd, !chase_rotate_cycle.
    replace (k / (2 * n) + 3)%nat with (k / (2 * n) + 1 * 3)%nat by lia.
    now rewrite Nat.Div0.mod_add. }
  rewrite Hm, Hc. split; [reflexivity|].
  assert (Hp : (chase_position n (k mod (2 * n)) < n)%nat).
  { apply chase_position_bound; [exact Hn|].
    apply Nat.mod_upper_bound. lia. }
  now rewrite !chase_body_buffer.
Qed.

Lemma chase_colour_repeats_witness :
  let top j := frames (Chase.body 100 false 2) j Chase.start (clear_leds 2 boot) in
  let shown j :=
    buffer 2 (snd (Chase.body 100 false 2 (fst (top j)) (snd (top j)))) in
  fst (top 13%nat) = fst (top 1%nat) /\
  shown 13%nat = shown 1%nat.
Proof.
  apply (chase_colour_repeats 100 false 2 1 boot).
  - lia.
  - unfold INT_MAX. simpl. lia.
Defined.

(** X19: whatever the adjustment rate and the direction, a channel of
    [fade_three] that lands on 0 or on 255 exactly is given the direction 1
    or -1 there, and from that frame on it reflects in steps of one: the
    rate passed to the routine is not used again for it. *)
Theorem fade_channel_rate_lost_at_a_bound (vd : Z * Z) (k : nat) :
  fst (fade_channel vd) = 0 \/ fst (fade_channel vd) = 255 ->
  reflecting (Nat.iter k fade_channel (fade_channel vd)).
Proof.
  intros H.
  assert (H0 : reflecting (fade_channel vd)).
  { destruct vd as [v d]. unfold fade_channel, reflecting in *.
    cbn [fst snd] in *. unfold Fade.turn.
    destruct H as [-> | ->]; cbn; repeat split; try lia; auto. }
  induction k as [|k IH].
  - exact H0.
  - rewrite Nat.iter_succ. now apply fade_channel_reflecting.
Qed.

Lemma fade_channel_rate_lost_at_a_bound_witness :
  reflecting (Nat.iter 7 fade_channel (fade_channel (1, -2))).
Proof.
  apply (fade_channel_rate_lost_at_a_bound (1, -2) 7).
  right. reflexivity.
Defined.

(** X20: on an empty buffer [chase_colour] never turns: no cell is ever
    equal to the position, so frame after frame the position goes up by one
    (as long as it fits an [int]), the colour stays red and nothing is
    stored. *)
Theorem chase_colour_empty_buffer
        (period : Z) (bg_on : bool) (k : nat) (m : machine) :
  Z.of_nat k <= INT_MAX ->
  let top := frames (Chase.body period bg_on 0) k Chase.start (clear_leds 0 m) in
  fst top = Chase.Locals (Z.of_nat k) Chase.chr_r 1 /\
  written (snd top) = written m /\
  cell (snd top) = cell m.
Proof.
  intros Hk. cbv zeta. split.
  - rewrite chase_frames_locals.
    induction k as [|k IH].
    + reflexivity.
    + rewrite Nat.iter_succ, IH by lia.
      unfold Chase.next, size_t_of_int, INT_MAX in *.
      cbn [Chase.clr_dir Chase.clr_pos Chase.clr_id Z.eqb Pos.eqb].
      rewrite s32_small by (unfold INT_MAX; lia).
      rewrite u32_small by lia.
      destruct (Z.eqb_spec (Z.of_nat k + 1) (Z.of_nat 0)); [lia|].
      f_equal. lia.
  - apply (frames_inv (Chase.body period bg_on 0)
                      (fun m' => written m' = written m /\ cell m' = cell m)).
    + intros l m' [Hw Hc]. unfold Chase.body. cbn. auto.
    + split; reflexivity.
Qed.

Lemma chase_colour_empty_buffer_witness :
  let top := frames (Chase.body 100 false 0) 5 Chase.start (clear_leds 0 boot) in
  fst top = Chase.Locals 5 Chase.chr_r 1 /\
  written (snd top) = [] /\
  cell (snd top) = cell boot.
Proof.
  apply (chase_colour_empty_buffer 100 false 5 boot).
  unfold INT_MAX. simpl. lia.
Defined.
